(** * Doris stream-load flusher: shallow embedding and verified properties

    The development follows the Go sources of the Doris flusher plugin
    ([plugins/flusher/doris]) and of the vendored go-doris-sdk
    ([pkg/load/util/http_client.go], [pkg/load/loader/resp_content.go], the
    reader strategy listed in the SDK documentation).  Integers are [Z] with
    the wrap-around of Go's fixed-width types written out, strings are
    [string] (a Go string is a byte sequence), maps are [gmap], effects are
    explicit state passing with event traces. *)

From Stdlib Require Strings.Byte.
From stdpp Require Import base numbers option list strings pretty gmap.

Local Open Scope Z_scope.

(** ** Results of fallible Go functions: [(value, error)] pairs. *)

Inductive result (A : Type) : Type :=
| Ok (a : A)
| Err (msg : string).
Arguments Ok {A} a.
Arguments Err {A} msg.

Definition is_err {A} (r : result A) : bool :=
  match r with Ok _ => false | Err _ => true end.

(** Go's [error] return value: [None] is [nil]. *)
Definition error := option string.

(** ** pkg/load/util/http_client.go *)

Module util.

(** [time.Duration] counts nanoseconds. *)
Definition Second : Z := 1000000000.

Record TLSConfig := { InsecureSkipVerify : bool }.

Record Transport := {
  MaxIdleConnsPerHost : Z;
  MaxConnsPerHost : Z;
  MaxIdleConns : Z;
  TLSClientConfig : TLSConfig
}.

Record Client := {
  ClientTransport : Transport;
  Timeout : Z
}.

(** The value built by [buildHttpClient]. *)
Definition builtClient : Client :=
  {| ClientTransport :=
       {| MaxIdleConnsPerHost := 30;
          MaxConnsPerHost := 50;
          MaxIdleConns := 50;
          TLSClientConfig := {| InsecureSkipVerify := true |} |};
     Timeout := 120 * Second |}.

(** Pointers into the store of allocated [http.Client] objects. *)
Definition ptr := nat.

(** Package state: the variables [client] and [once], and the store in
    which [&http.Client{...}] allocates.  Every allocation appends to the
    store, so its length counts the executions of [buildHttpClient]. *)
Record Package := {
  client : option ptr;
  once : bool;
  store : list Client
}.

(** State of the package when the process starts. *)
Definition initial : Package :=
  {| client := None; once := false; store := [] |}.

(** [buildHttpClient] allocates a fresh client and returns its address. *)
Definition buildHttpClient (p : Package) : ptr * Package :=
  (length (store p),
   {| client := client p; once := once p; store := store p ++ [builtClient] |}).

(** [once.Do(f)] runs [f] only if no earlier [Do] of this [Once] ran. *)
Definition GetHttpClient (p : Package) : option ptr * Package :=
  if once p then (client p, p)
  else
    let '(c, p1) := buildHttpClient p in
    let p2 := {| client := Some c; once := true; store := store p1 |} in
    (client p2, p2).

(** A linearised sequence of [n] calls, with the pointers they return. *)
Fixpoint calls (n : nat) (p : Package) : list (option ptr) * Package :=
  match n with
  | O => ([], p)
  | S n' =>
      let '(c, p1) := GetHttpClient p in
      let '(cs, p2) := calls n' p1 in
      (c :: cs, p2)
  end.

End util.

(** ** pkg/load: data model of the SDK *)

Module load.

(** [pkg/load/loader/resp_content.go] *)
Inductive LoadStatus := FAILURE | SUCCESS.

#[export] Instance LoadStatus_eq_dec : EqDecision LoadStatus.
Proof. solve_decision. Defined.

Definition LoadStatus_String (s : LoadStatus) : string :=
  match s with
  | SUCCESS => "SUCCESS"
  | FAILURE => "FAILURE"
  end.

Record RespContent := {
  TxnID : Z;
  RespLabel : string;
  RespStatus : string;
  TwoPhaseCommit : string;
  ExistingJobStatus : string;
  Message : string;
  NumberTotalRows : Z;
  NumberLoadedRows : Z;
  NumberFilteredRows : Z;
  NumberUnselectedRows : Z;
  LoadBytes : Z;
  LoadTimeMs : Z;
  BeginTxnTimeMs : Z;
  StreamLoadPutTimeMs : Z;
  ReadDataTimeMs : Z;
  WriteDataTimeMs : Z;
  CommitAndPublishTimeMs : Z;
  ErrorURL : string
}.

Record LoadResponse := {
  Status : LoadStatus;
  Resp : RespContent;
  ErrorMessage : string
}.

(** Configuration types, as the flusher and the SDK documentation use
    them ([Config], [Retry], [GroupCommitMode], the two [Format]s). *)
Inductive GroupCommitMode := SYNC | ASYNC | OFF.

#[export] Instance GroupCommitMode_eq_dec : EqDecision GroupCommitMode.
Proof. solve_decision. Defined.

Inductive JSONType := JSONObjectLine | JSONArray.

Inductive Format :=
| JSONFormat (ty : JSONType)
| CSVFormat (ColumnSeparator LineDelimiter : string).

Record Retry := {
  MaxRetryTimes : Z;
  BaseIntervalMs : Z;
  MaxTotalTimeMs : Z
}.

Record Config := {
  Endpoints : option (list string);
  User : string;
  Password : string;
  Database : string;
  Table : string;
  LabelPrefix : string;
  Label : string;
  ConfigFormat : Format;
  ConfigRetry : option Retry;
  GroupCommit : GroupCommitMode;
  Options : gmap string string
}.

(** Modelled from the spec: [DefaultJSONFormat] and [DefaultRetry] are
    constructors of the SDK whose bodies are not among the sources; the
    SDK guide gives their values (JSON lines; six retries, one second base
    interval, sixty seconds in total). *)
Definition DefaultJSONFormat : Format := JSONFormat JSONObjectLine.

Definition DefaultRetry : Retry :=
  {| MaxRetryTimes := 6; BaseIntervalMs := 1000; MaxTotalTimeMs := 60000 |}.

End load.

(** ** The submission: label manager, request builder, retry orchestrator

    The bodies of [DorisLoadClient.Load] and of the request builder are not
    among the sources of the SDK that the plugin vendors; this module states
    them the way the design document does. *)

Module loader.
Import load.

Inductive Warning :=
| LabelIgnored (label labelPrefix : string).

Record Request := {
  req_endpoint : option string;
  req_path : string;
  req_headers : gmap string string;
  req_body : list Byte.byte
}.

Inductive AttemptResult :=
| TransportError (msg : string)
| Classified (r : LoadResponse).

(** What the world answers to one attempt: how long the request was in
    flight (milliseconds) and how it ended. *)
Record Outcome := {
  dur : Z;
  res : AttemptResult
}.

(** The environment of one submission: clock and random source of the
    label manager, the random endpoint choice and the outcome of each
    attempt (attempts are numbered from zero here). *)
Record Env := {
  now_ms : Z;
  random_suffix : string;
  pick : nat -> nat;
  outcome : nat -> Outcome
}.

Inductive Event :=
| EvWarn (w : Warning)
| EvAttempt (req : Request) (d : Z) (r : AttemptResult)
| EvSleep (ms : Z).

Section Submission.

(** The prefix used when [LabelPrefix] is unset, a fixed constant. *)
Variable defaultLabelPrefix : string.

(** Modelled from the spec: the label manager [labelFor] (4.1).  With
    group commit on it returns nothing and records one warning; with
    group commit off it returns the configured label verbatim, or else
    prefix, millisecond timestamp and random suffix joined by
    underscores. *)
Definition labelFor (cfg : Config) (mode : GroupCommitMode)
    (ts : Z) (suffix : string) : option string * list Warning :=
  match mode with
  | OFF =>
      if decide (Label cfg = "") then
        let prefix :=
          if decide (LabelPrefix cfg = "") then defaultLabelPrefix
          else LabelPrefix cfg in
        (Some (prefix +:+ "_" +:+ pretty ts +:+ "_" +:+ suffix), [])
      else (Some (Label cfg), [])
  | SYNC | ASYNC => (None, [LabelIgnored (Label cfg) (LabelPrefix cfg)])
  end.

(** Modelled from the spec: the headers of the request builder (4.3, 6).
    Format headers, the group-commit directive and the label header (only
    if a label is present) are protocol-controlled; every entry of the
    caller's option map is merged as an additional header, without
    overriding a protocol-controlled one. *)
Definition formatHeaders (f : Format) : gmap string string :=
  match f with
  | JSONFormat JSONObjectLine =>
      <["format" := "json"]> {["read_json_by_line" := "true"]}
  | JSONFormat JSONArray =>
      <["format" := "json"]> {["strip_outer_array" := "true"]}
  | CSVFormat sep delim =>
      <["format" := "csv"]>
        (<["column_separator" := sep]> {["line_delimiter" := delim]})
  end.

Definition groupCommitHeaders (mode : GroupCommitMode) : gmap string string :=
  match mode with
  | SYNC => {["group_commit" := "sync_mode"]}
  | ASYNC => {["group_commit" := "async_mode"]}
  | OFF => ∅
  end.

Definition labelHeaders (label : option string) : gmap string string :=
  match label with
  | Some l => {["label" := l]}
  | None => ∅
  end.

Definition protocolHeaders (cfg : Config) (label : option string)
    : gmap string string :=
  <["Authorization" := "Basic " +:+ User cfg +:+ ":" +:+ Password cfg]>
    (formatHeaders (ConfigFormat cfg)
       ∪ groupCommitHeaders (GroupCommit cfg)
       ∪ labelHeaders label).

(** Modelled from the spec: [build] of the request builder (4.3).  The
    path is templated with database and table, the body is the attempt's
    body, protocol headers win over the caller's options. *)
Definition build (cfg : Config) (label : option string)
    (body : list Byte.byte) (endpoint : option string) : Request :=
  {| req_endpoint := endpoint;
     req_path := "/api/" +:+ Database cfg +:+ "/" +:+ Table cfg +:+ "/_stream_load";
     req_headers := protocolHeaders cfg label ∪ Options cfg;
     req_body := body |}.

(** Modelled from the spec: endpoint selection (4.3), a uniform random
    choice among the configured addresses, made anew for each attempt. *)
Definition selectEndpoint (cfg : Config) (r : nat) : option string :=
  match Endpoints cfg with
  | Some (e :: es) => (e :: es) !! (r `mod` length (e :: es))%nat
  | _ => None
  end.

(** Modelled from the spec: the retry orchestrator (4.4), a state machine
    [Idle -> Attempting -> {Success | Backoff} -> Attempting -> ... ->
    {Success | Exhausted}].  [attempts] counts the requests issued so
    far; the attempts used of the budget check are the retries among
    them (the first attempt is not one), which is what makes a count of
    [N] allow [N+1] attempts. *)
Inductive Phase :=
| Idle
| Attempting
| Backoff
| Success (r : LoadResponse)
| Exhausted (lastError : string) (attemptCount : nat) (elapsedMs : Z).

Record Machine := {
  phase : Phase;
  label : option string;
  attempts : nat;
  elapsed : Z;
  trace : list Event
}.

Definition start : Machine :=
  {| phase := Idle; label := None; attempts := 0; elapsed := 0; trace := [] |}.

Definition failureMessage (r : AttemptResult) : string :=
  match r with
  | TransportError msg => msg
  | Classified r => ErrorMessage r
  end.

Definition succeeded (r : AttemptResult) : option LoadResponse :=
  match r with
  | Classified r => if decide (Status r = SUCCESS) then Some r else None
  | TransportError _ => None
  end.

(** Modelled from the spec: the budget check after a failure (4.4),
    attempts used below the maximum and elapsed time below the total-time
    budget.  No policy, no retry. *)
Definition withinBudget (policy : option Retry) (issued : nat) (el : Z) : bool :=
  match policy with
  | None => false
  | Some p =>
      bool_decide (Z.of_nat issued - 1 < MaxRetryTimes p)
      && bool_decide (el < MaxTotalTimeMs p)
  end.

(** Modelled from the spec: the backoff interval (4.4),
    [min(baseInterval * 2^(attemptIndex-1), remainingBudget)], where the
    retry about to be made has index [issued]. *)
Definition backoffInterval (p : Retry) (issued : nat) (el : Z) : Z :=
  Z.min (BaseIntervalMs p * 2 ^ (Z.of_nat issued - 1)) (MaxTotalTimeMs p - el).

(** Modelled from the spec: one transition of the orchestrator (4.4).  The
    label is computed once, on leaving [Idle], and every attempt builds its
    request with it; a success is terminal; a failure within budget leads to
    [Backoff], any other failure to [Exhausted] with the last error, the
    attempt count and the elapsed time. *)
Definition step (cfg : Config) (env : Env) (body : list Byte.byte)
    (m : Machine) : Machine :=
  match phase m with
  | Idle =>
      let '(l, ws) :=
        labelFor cfg (GroupCommit cfg) (now_ms env) (random_suffix env) in
      {| phase := Attempting; label := l; attempts := 0; elapsed := 0;
         trace := trace m ++ (EvWarn <$> ws) |}
  | Attempting =>
      let i := attempts m in
      let req := build cfg (label m) body (selectEndpoint cfg (pick env i)) in
      let o := outcome env i in
      let el := elapsed m + dur o in
      let tr := trace m ++ [EvAttempt req (dur o) (res o)] in
      match succeeded (res o) with
      | Some r =>
          {| phase := Success r; label := label m; attempts := S i;
             elapsed := el; trace := tr |}
      | None =>
          {| phase :=
               if withinBudget (ConfigRetry cfg) (S i) el then Backoff
               else Exhausted (failureMessage (res o)) (S i) el;
             label := label m; attempts := S i; elapsed := el; trace := tr |}
      end
  | Backoff =>
      match ConfigRetry cfg with
      | Some p =>
          let d := backoffInterval p (attempts m) (elapsed m) in
          {| phase := Attempting; label := label m; attempts := attempts m;
             elapsed := elapsed m + d; trace := trace m ++ [EvSleep d] |}
      | None => m
      end
  | Success _ | Exhausted _ _ _ => m
  end.

Fixpoint run (fuel : nat) (cfg : Config) (env : Env) (body : list Byte.byte)
    (m : Machine) : Machine :=
  match fuel with
  | O => m
  | S fuel' => run fuel' cfg env body (step cfg env body m)
  end.

(** Steps that any submission needs at most: one to leave [Idle], one per
    attempt and one per backoff. *)
Definition budgetSteps (cfg : Config) : nat :=
  match ConfigRetry cfg with
  | None => 2
  | Some p => 2 * Z.to_nat (MaxRetryTimes p) + 2
  end.

Definition Load (cfg : Config) (env : Env) (body : list Byte.byte) : Machine :=
  run (budgetSteps cfg) cfg env body start.

Definition terminal (p : Phase) : bool :=
  match p with
  | Success _ | Exhausted _ _ _ => true
  | _ => false
  end.

(** Observations on a trace. *)
Definition requests (tr : list Event) : list Request :=
  omap (fun e => match e with EvAttempt req _ _ => Some req | _ => None end) tr.

Definition sleeps (tr : list Event) : list Z :=
  omap (fun e => match e with EvSleep d => Some d | _ => None end) tr.

Definition warnings (tr : list Event) : list Warning :=
  omap (fun e => match e with EvWarn w => Some w | _ => None end) tr.

Definition duration (e : Event) : Z :=
  match e with
  | EvWarn _ => 0
  | EvAttempt _ d _ => d
  | EvSleep d => d
  end.

Definition sumZ (l : list Z) : Z := foldr Z.add 0 l.

Definition timeOf (tr : list Event) : Z := sumZ (duration <$> tr).

(** Invariants of the machine.  [measure] bounds the steps a machine still
    needs; [Inv] ties the counters to the trace; [Bounded] bounds the
    attempts; [Scheduled] says that each sleep in a trace is the backoff
    interval of its retry; [Capped] that the sleeps are part of the elapsed
    time and within the total-time budget; [Unlabelled] that every request
    was built without a label and the warning was recorded once. *)
Definition measure (cfg : Config) (m : Machine) : nat :=
  let n := match ConfigRetry cfg with
           | None => 0%nat
           | Some p => Z.to_nat (MaxRetryTimes p)
           end in
  match phase m with
  | Idle => 2 * n + 2
  | Attempting => 2 * (n - attempts m) + 1
  | Backoff => 2 * (n - attempts m) + 2
  | Success _ | Exhausted _ _ _ => 0
  end%nat.

Definition Inv (cfg : Config) (m : Machine) : Prop :=
  length (requests (trace m)) = attempts m /\
  timeOf (trace m) = elapsed m /\
  match phase m with
  | Idle => attempts m = 0%nat /\ trace m = []
  | Attempting => length (sleeps (trace m)) = attempts m
  | Backoff =>
      S (length (sleeps (trace m))) = attempts m /\
      withinBudget (ConfigRetry cfg) (attempts m) (elapsed m) = true
  | Success _ | Exhausted _ _ _ => S (length (sleeps (trace m))) = attempts m
  end.

Definition Bounded (cfg : Config) (m : Machine) : Prop :=
  match ConfigRetry cfg with
  | Some p =>
      match phase m with
      | Idle => True
      | Attempting | Backoff => Z.of_nat (attempts m) <= MaxRetryTimes p
      | Success _ | Exhausted _ _ _ => Z.of_nat (attempts m) <= MaxRetryTimes p + 1
      end
  | None =>
      match phase m with
      | Idle => True
      | Attempting => attempts m = 0%nat
      | Backoff => False
      | Success _ | Exhausted _ _ _ => attempts m = 1%nat /\ sleeps (trace m) = []
      end
  end.

Definition Scheduled (p : Retry) (tr : list Event) : Prop :=
  forall pre d post,
    tr = pre ++ EvSleep d :: post ->
    d = Z.min (BaseIntervalMs p * 2 ^ (Z.of_nat (S (length (sleeps pre))) - 1))
              (MaxTotalTimeMs p - timeOf pre).

Definition Capped (p : Retry) (m : Machine) : Prop :=
  sumZ (sleeps (trace m)) <= elapsed m /\
  sumZ (sleeps (trace m)) <= MaxTotalTimeMs p.

Definition Unlabelled (cfg : Config) (m : Machine) : Prop :=
  Forall (fun req => req_headers req = protocolHeaders cfg None ∪ Options cfg)
    (requests (trace m)) /\
  match phase m with
  | Idle => trace m = []
  | _ => label m = None /\
         warnings (trace m) = [LabelIgnored (Label cfg) (LabelPrefix cfg)]
  end.

End Submission.

Arguments requests : simpl never.
Arguments sleeps : simpl never.
Arguments warnings : simpl never.
Arguments timeOf : simpl never.
Arguments sumZ : simpl never.

End loader.

(** ** Replayable request bodies

    The reader strategy of [Load], as the SDK's reader analysis lists it:
    a reader that is also an [io.Seeker] is rewound before each attempt and
    handed out itself; any other reader is read to its end into a
    [bytes.Buffer] once, and each attempt gets [bytes.NewReader(buf.Bytes())]. *)

Module replay.

(** A reader with random access ([*os.File], [*bytes.Reader], ...): its
    content, the read position, and whether it has been closed (then
    [Seek] fails). *)
Record SeekReader := {
  content : list Byte.byte;
  offset : nat;
  closed : bool
}.

(** A reader without random access: the bytes it has yet to produce,
    whether reading it ends in an error, and how many times it has been
    read to its end. *)
Record StreamReader := {
  pending : list Byte.byte;
  failing : bool;
  drained : nat
}.

Inductive Reader :=
| Seeker (s : SeekReader)
| Stream (s : StreamReader).

(** [seeker.Seek(0, io.SeekStart)] *)
Definition Seek0 (s : SeekReader) : result SeekReader :=
  if closed s then Err "file already closed"
  else Ok {| content := content s; offset := 0; closed := closed s |}.

(** What is left to read from a seekable reader. *)
Definition remaining (s : SeekReader) : list Byte.byte :=
  drop (offset s) (content s).

(** Reading [n] bytes advances the position, up to the end. *)
Definition advance (n : nat) (s : SeekReader) : SeekReader :=
  {| content := content s;
     offset := Nat.min (offset s + n) (length (content s));
     closed := closed s |}.

(** [buf.ReadFrom(reader)]: reads the stream to its end. *)
Definition ReadFrom (s : StreamReader) : result (list Byte.byte) * StreamReader :=
  if failing s then
    (Err "read error",
     {| pending := []; failing := failing s; drained := S (drained s) |})
  else
    (Ok (pending s),
     {| pending := []; failing := failing s; drained := S (drained s) |}).

(** [bytes.NewReader(b)] *)
Definition NewReader (b : list Byte.byte) : SeekReader :=
  {| content := b; offset := 0; closed := false |}.

(** The closure [getBodyFunc] together with the objects it captures by
    reference: the caller's seekable reader, or the buffer (the drained
    origin is kept to observe it). *)
Inductive BodyFunc :=
| SeekBody (reader : SeekReader)
| BufferBody (buf : list Byte.byte) (origin : StreamReader).

(** The reader handed to an attempt: the caller's reader itself, or a
    fresh cursor over the buffer. *)
Inductive Body :=
| Shared
| Fresh (cursor : SeekReader).

(** The capability test and the construction of the closure. *)
Definition newBodyFunc (r : Reader) : result BodyFunc :=
  match r with
  | Seeker s => Ok (SeekBody s)
  | Stream s =>
      match ReadFrom s with
      | (Err e, _) => Err ("failed to buffer reader content: " +:+ e)
      | (Ok b, s') => Ok (BufferBody b s')
      end
  end.

(** One call of the closure. *)
Definition getBodyFunc (g : BodyFunc) : result Body * BodyFunc :=
  match g with
  | SeekBody s =>
      match Seek0 s with
      | Err e => (Err ("failed to seek to start: " +:+ e), g)
      | Ok s' => (Ok Shared, SeekBody s')
      end
  | BufferBody b o => (Ok (Fresh (NewReader b)), g)
  end.

(** The bytes an attempt's body supplies when read to its end. *)
Definition supplied (b : Body) (g : BodyFunc) : list Byte.byte :=
  match b, g with
  | Shared, SeekBody s => remaining s
  | Shared, BufferBody _ _ => []
  | Fresh c, _ => remaining c
  end.

(** The transport reads [n] bytes of the body: this moves the caller's
    reader when the body is that reader, and nothing the closure holds
    when the body is a fresh cursor. *)
Definition consume (n : nat) (b : Body) (g : BodyFunc) : BodyFunc :=
  match b, g with
  | Shared, SeekBody s => SeekBody (advance n s)
  | _, _ => g
  end.

(** A sequence of attempts, the [k]-th reading [reads !! k] bytes of its
    body before it ends; the result lists the reader each attempt was handed
    and the bytes that reader supplies. *)
Fixpoint attemptBodies (reads : list nat) (g : BodyFunc)
    : list (result (Body * list Byte.byte)) * BodyFunc :=
  match reads with
  | [] => ([], g)
  | n :: reads' =>
      match getBodyFunc g with
      | (Err e, g1) =>
          let '(rest, g2) := attemptBodies reads' g1 in
          (Err e :: rest, g2)
      | (Ok b, g1) =>
          let '(rest, g2) := attemptBodies reads' (consume n b g1) in
          (Ok (b, supplied b g1) :: rest, g2)
      end
  end.

(** The origin content from offset zero. *)
Definition original (r : Reader) : list Byte.byte :=
  match r with
  | Seeker s => content s
  | Stream s => pending s
  end.

(** How often the origin of a buffered body has been drained. *)
Definition drains (g : BodyFunc) : option nat :=
  match g with
  | SeekBody _ => None
  | BufferBody _ o => Some (drained o)
  end.

(** The closure still refers to the seekable reader [s], whatever its
    position. *)
Definition tracks (s : SeekReader) (g : BodyFunc) : Prop :=
  match g with
  | SeekBody s' => content s' = content s /\ closed s' = closed s
  | BufferBody _ _ => False
  end.

End replay.

(** ** plugins/flusher/doris: the flusher plugin *)

Module doris.
Import load.

(** Log lines and alarms written through the logger. *)
Inductive Log :=
| Debug (msg : string)
| Info (msg : string)
| Warning (alarm msg : string)
| Warningf (msg : string).

(** [strings.ToLower] on the bytes of the string.  Only the letters [A]
    to [Z] are mapped; Go also maps upper-case letters outside ASCII, none
    of them to a letter of the mode names, so results of the [switch] in
    [parseGroupCommitMode] are the same. *)
Definition lowerAscii (c : Ascii.ascii) : Ascii.ascii :=
  let n := Ascii.nat_of_ascii c in
  if bool_decide (65 <= n <= 90)%nat then Ascii.ascii_of_nat (n + 32) else c.

Fixpoint ToLower (s : string) : string :=
  match s with
  | EmptyString => EmptyString
  | String c s' => String (lowerAscii c) (ToLower s')
  end.

(** [parseGroupCommitMode] converts string to [GroupCommitMode]. *)
Definition parseGroupCommitMode (mode : string) : GroupCommitMode * list Log :=
  let m := ToLower mode in
  if decide (m = "sync") then (SYNC, [])
  else if decide (m = "async") then (ASYNC, [])
  else if decide (m = "off" \/ m = "") then (OFF, [])
  else (OFF, [Warningf ("Unknown group commit mode: " +:+ mode +:+ ", using 'off'")]).

(** Strings that differ only in the case of ASCII letters: [up] is an
    upper-case letter and [lo] the lower-case letter for it. *)
Definition upperOf (lo up : Ascii.ascii) : Prop :=
  (65 <= Ascii.nat_of_ascii up <= 90)%nat /\
  Ascii.nat_of_ascii lo = (Ascii.nat_of_ascii up + 32)%nat.

Definition sameFold (c1 c2 : Ascii.ascii) : Prop :=
  c1 = c2 \/ upperOf c1 c2 \/ upperOf c2 c1.

Fixpoint sameLetters (s1 s2 : string) : Prop :=
  match s1, s2 with
  | EmptyString, EmptyString => True
  | String c1 s1', String c2 s2' => sameFold c1 c2 /\ sameLetters s1' s2'
  | _, _ => False
  end.

Record PlainTextConfig := {
  Username : string;
  Password : string;
  PlainDatabase : string
}.

Record Authentication := {
  PlainText : option PlainTextConfig
}.

(** Modelled from the spec: [Authentication.GetUsernamePassword] is not
    among the sources; its test table fixes that a missing plaintext
    config, an empty username and an empty password each give an error
    naming what is missing, and that otherwise the pair is returned. *)
Definition GetUsernamePassword (a : Authentication) : result (string * string) :=
  match PlainText a with
  | None => Err "plaintext authentication config is not set"
  | Some p =>
      if decide (Username p = "") then Err "username is not set"
      else if decide (Password p = "") then Err "password is not set"
      else Ok (Username p, Password p)
  end.

(** The plaintext username or password is missing. *)
Definition credentialsMissing (a : Authentication) : Prop :=
  match PlainText a with
  | None => True
  | Some p => Username p = "" \/ Password p = ""
  end.

Record convertConfig := {
  TagFieldsRename : gmap string string;
  ProtocolFieldsRename : gmap string string;
  Protocol : string;
  Encoding : string
}.

Definition ProtocolCustomSingle : string := "custom_single".
Definition EncodingJSON : string := "json".

(** [uint64] arithmetic: [atomic.AddUint64] wraps around, and the
    conversion [uint64(x)] of an [int64] keeps the low 64 bits. *)
Definition two64 : Z := 2 ^ 64.
Definition add64 (a b : Z) : Z := (a + b) `mod` two64.
Definition uint64 (x : Z) : Z := x `mod` two64.

(** [statistics]; times are nanoseconds, the zero [time.Time] is [None]. *)
Record statistics := {
  startTime : Z;
  totalBytes : Z;
  totalRows : Z;
  lastBytes : Z;
  lastRows : Z;
  lastReportTime : option Z;
  lastReportBytes : Z;
  lastReportRows : Z
}.

(** [updateStatistics] updates the statistics with new load results; the
    arguments are [uint64] values.  The method touches only the [stats] of
    its receiver, which is the state given here. *)
Definition updateStatistics (s : statistics) (bytes rows : Z) : statistics :=
  {| startTime := startTime s;
     totalBytes := add64 (totalBytes s) bytes;
     totalRows := add64 (totalRows s) rows;
     lastBytes := add64 (lastBytes s) bytes;
     lastRows := add64 (lastRows s) rows;
     lastReportTime := lastReportTime s;
     lastReportBytes := lastReportBytes s;
     lastReportRows := lastReportRows s |}.

(** The progress line.  Its throughput figures are floating-point
    quotients of these integers and of the elapsed times; the record keeps
    the integers the line is computed from. *)
Record ProgressLine := {
  lineTotalBytes : Z;
  lineTotalRows : Z;
  lineLastBytes : Z;
  lineLastRows : Z;
  lineInterval : Z
}.

(** [logProgress] at time [now]: the lifetime counters are loaded, the
    windowed counters are swapped with zero, the report fields are set. *)
Definition logProgress (s : statistics) (interval now : Z)
    : statistics * ProgressLine :=
  let totalBytes' := totalBytes s in
  let totalRows' := totalRows s in
  let lastBytes' := lastBytes s in
  let lastRows' := lastRows s in
  ({| startTime := startTime s;
      totalBytes := totalBytes s;
      totalRows := totalRows s;
      lastBytes := 0;
      lastRows := 0;
      lastReportTime := Some now;
      lastReportBytes := totalBytes';
      lastReportRows := totalRows' |},
   {| lineTotalBytes := totalBytes'; lineTotalRows := totalRows';
      lineLastBytes := lastBytes'; lineLastRows := lastRows';
      lineInterval := interval |}).

(** The calls that touch the statistics of a running flusher, taken one
    after the other: [updateStatistics] after a successful load, and
    [logProgress] on a tick. *)
Inductive Op :=
| Loaded (bytes rows : Z)
| Report (interval now : Z).

Definition applyOp (s : statistics) (o : Op) : statistics :=
  match o with
  | Loaded b r => updateStatistics s b r
  | Report i t => fst (logProgress s i t)
  end.

Definition runOps (ops : list Op) (s : statistics) : statistics :=
  foldl applyOp s ops.

(** An operation fits when its arguments are [uint64] values and no
    lifetime counter passes [2^64 - 1]. *)
Definition fits (s : statistics) (o : Op) : Prop :=
  match o with
  | Loaded b r =>
      0 <= b /\ 0 <= r /\ totalBytes s + b < two64 /\ totalRows s + r < two64
  | Report _ _ => True
  end.

Fixpoint fitsAll (ops : list Op) (s : statistics) : Prop :=
  match ops with
  | [] => True
  | o :: ops' => fits s o /\ fitsAll ops' (applyOp s o)
  end.

(** Counters hold [uint64] values. *)
Definition inRange (s : statistics) : Prop :=
  0 <= totalBytes s < two64 /\ 0 <= totalRows s < two64 /\
  0 <= lastBytes s < two64 /\ 0 <= lastRows s < two64.

Definition newStatistics (now : Z) : statistics :=
  {| startTime := now; totalBytes := 0; totalRows := 0;
     lastBytes := 0; lastRows := 0; lastReportTime := None;
     lastReportBytes := 0; lastReportRows := 0 |}.

(** The collaborators of the plugin outside this package: the protocol
    converter of the pipeline, and the SDK client with the server behind
    it (a [Load] call changes the state of that world). *)
Class Externals := {
  LogGroup : Type;
  Converter : Type;
  DorisLoadClient : Type;
  World : Type;
  NewConverter : string -> string -> gmap string string -> gmap string string
                 -> result Converter;
  ToByteStream : Converter -> LogGroup -> result (list (list Byte.byte));
  NewLoadClient : Config -> result DorisLoadClient;
  ClientLoad : DorisLoadClient -> list Byte.byte -> World
               -> result LoadResponse * World
}.

Section Flusher.
Context `{Externals}.

Record FlusherDoris := {
  Addresses : option (list string);
  FlusherDatabase : string;
  FlusherAuthentication : Authentication;
  FlusherTable : string;
  LoadProperties : gmap string string;
  LogProgressInterval : Z;
  FlusherGroupCommit : string;
  dorisClient : option DorisLoadClient;
  converter : option Converter;
  Convert : convertConfig;
  stats : statistics;
  progressTicker : option Z
}.

Definition NewFlusherDoris (now : Z) : FlusherDoris :=
  {| Addresses := Some [];
     FlusherDatabase := "";
     FlusherAuthentication :=
       {| PlainText := Some {| Username := ""; Password := ""; PlainDatabase := "" |} |};
     FlusherTable := "";
     LoadProperties := ∅;
     LogProgressInterval := 10;
     FlusherGroupCommit := "off";
     dorisClient := None;
     converter := None;
     Convert := {| TagFieldsRename := ∅; ProtocolFieldsRename := ∅;
                   Protocol := ProtocolCustomSingle; Encoding := EncodingJSON |};
     stats := newStatistics now;
     progressTicker := None |}.

(** Field updates of the receiver. *)
Definition set_Convert (c : convertConfig) (f : FlusherDoris) : FlusherDoris :=
  {| Addresses := Addresses f; FlusherDatabase := FlusherDatabase f;
     FlusherAuthentication := FlusherAuthentication f;
     FlusherTable := FlusherTable f; LoadProperties := LoadProperties f;
     LogProgressInterval := LogProgressInterval f;
     FlusherGroupCommit := FlusherGroupCommit f;
     dorisClient := dorisClient f; converter := converter f;
     Convert := c; stats := stats f; progressTicker := progressTicker f |}.

Definition set_converter (c : option Converter) (f : FlusherDoris) : FlusherDoris :=
  {| Addresses := Addresses f; FlusherDatabase := FlusherDatabase f;
     FlusherAuthentication := FlusherAuthentication f;
     FlusherTable := FlusherTable f; LoadProperties := LoadProperties f;
     LogProgressInterval := LogProgressInterval f;
     FlusherGroupCommit := FlusherGroupCommit f;
     dorisClient := dorisClient f; converter := c;
     Convert := Convert f; stats := stats f; progressTicker := progressTicker f |}.

Definition set_dorisClient (c : option DorisLoadClient) (f : FlusherDoris)
    : FlusherDoris :=
  {| Addresses := Addresses f; FlusherDatabase := FlusherDatabase f;
     FlusherAuthentication := FlusherAuthentication f;
     FlusherTable := FlusherTable f; LoadProperties := LoadProperties f;
     LogProgressInterval := LogProgressInterval f;
     FlusherGroupCommit := FlusherGroupCommit f;
     dorisClient := c; converter := converter f;
     Convert := Convert f; stats := stats f; progressTicker := progressTicker f |}.

Definition set_stats (s : statistics) (f : FlusherDoris) : FlusherDoris :=
  {| Addresses := Addresses f; FlusherDatabase := FlusherDatabase f;
     FlusherAuthentication := FlusherAuthentication f;
     FlusherTable := FlusherTable f; LoadProperties := LoadProperties f;
     LogProgressInterval := LogProgressInterval f;
     FlusherGroupCommit := FlusherGroupCommit f;
     dorisClient := dorisClient f; converter := converter f;
     Convert := Convert f; stats := s; progressTicker := progressTicker f |}.

Definition set_progressTicker (t : option Z) (f : FlusherDoris) : FlusherDoris :=
  {| Addresses := Addresses f; FlusherDatabase := FlusherDatabase f;
     FlusherAuthentication := FlusherAuthentication f;
     FlusherTable := FlusherTable f; LoadProperties := LoadProperties f;
     LogProgressInterval := LogProgressInterval f;
     FlusherGroupCommit := FlusherGroupCommit f;
     dorisClient := dorisClient f; converter := converter f;
     Convert := Convert f; stats := stats f; progressTicker := t |}.

(** [Validate]; the receiver's context is the one [Init] stores first. *)
Definition Validate (f : FlusherDoris) : error * list Log :=
  match Addresses f with
  | None | Some [] =>
      (Some "doris addrs is nil",
       [Warning "FLUSHER_INIT_ALARM" "init doris flusher error"])
  | Some (_ :: _) =>
      if decide (FlusherTable f = "") then
        (Some "doris table is nil",
         [Warning "FLUSHER_INIT_ALARM" "init doris flusher error"])
      else (None, [])
  end.


(** What [Init] and [Flush] do to the outside, in order. *)
Inductive Event :=
| Logged (l : Log)
| ClientCreation (cfg : Config)
| TickerStarted (seconds : Z)
| LoadCall (buffer : list Byte.byte) (r : result LoadResponse).

Definition getConverter (f : FlusherDoris) : result Converter * list Event :=
  (NewConverter (Protocol (Convert f)) (Encoding (Convert f))
     (TagFieldsRename (Convert f)) (ProtocolFieldsRename (Convert f)),
   [Logged (Debug "[ilogtail data convert config] Protocol")]).

(** [initDorisClient] initializes the Doris Stream Load client. *)
Definition initDorisClient (f : FlusherDoris)
    : error * FlusherDoris * list Event :=
  match GetUsernamePassword (FlusherAuthentication f) with
  | Err err =>
      (Some ("failed to get authentication credentials: " +:+ err), f, [])
  | Ok (username, password) =>
      let '(mode, logs) := parseGroupCommitMode (FlusherGroupCommit f) in
      let config :=
        {| Endpoints := Addresses f;
           User := username;
           load.Password := password;
           Database := FlusherDatabase f;
           Table := FlusherTable f;
           LabelPrefix := "LoongCollector_doris_flusher";
           Label := "";
           ConfigFormat := DefaultJSONFormat;
           ConfigRetry := Some DefaultRetry;
           GroupCommit := mode;
           Options := LoadProperties f |} in
      match NewLoadClient config with
      | Err err =>
          (Some ("failed to create doris client: " +:+ err), f,
           (Logged <$> logs) ++ [ClientCreation config])
      | Ok client =>
          (None, set_dorisClient (Some client) f,
           (Logged <$> logs) ++
           [ClientCreation config;
            Logged (Info "Doris client initialized successfully")])
      end
  end.

(** [startProgressLogging] starts the ticker and its goroutine. *)
Definition startProgressLogging (f : FlusherDoris) : FlusherDoris * list Event :=
  (set_progressTicker (Some (LogProgressInterval f)) f,
   [TickerStarted (LogProgressInterval f)]).

Definition Init (f : FlusherDoris) : error * FlusherDoris * list Event :=
  match Validate f with
  | (Some err, logs) =>
      (Some err, f,
       (Logged <$> logs) ++
       [Logged (Warning "FLUSHER_INIT_ALARM" "init doris flusher fail, error")])
  | (None, logs) =>
      let f1 :=
        if decide (Encoding (Convert f) = "") then
          set_Convert {| TagFieldsRename := TagFieldsRename (Convert f);
                         ProtocolFieldsRename := ProtocolFieldsRename (Convert f);
                         Protocol := Protocol (Convert f);
                         Encoding := EncodingJSON |} f
        else f in
      let f2 :=
        if decide (Protocol (Convert f1) = "") then
          set_Convert {| TagFieldsRename := TagFieldsRename (Convert f1);
                         ProtocolFieldsRename := ProtocolFieldsRename (Convert f1);
                         Protocol := ProtocolCustomSingle;
                         Encoding := Encoding (Convert f1) |} f1
        else f1 in
      match getConverter f2 with
      | (Err err, evs) =>
          (Some err, f2,
           (Logged <$> logs) ++ evs ++
           [Logged (Warning "FLUSHER_INIT_ALARM"
                      "init doris flusher converter fail, error")])
      | (Ok convert, evs) =>
          let f3 := set_converter (Some convert) f2 in
          match initDorisClient f3 with
          | (Some err, f4, evs') =>
              (Some err, f4,
               (Logged <$> logs) ++ evs ++ evs' ++
               [Logged (Warning "FLUSHER_INIT_ALARM"
                          "init doris client fail, error")])
          | (None, f4, evs') =>
              if bool_decide (LogProgressInterval f4 > 0) then
                let '(f5, evs'') := startProgressLogging f4 in
                (None, f5, (Logged <$> logs) ++ evs ++ evs' ++ evs'')
              else (None, f4, (Logged <$> logs) ++ evs ++ evs')
          end
      end
  end.

(** The buffer of one log group: every serialized log followed by a
    newline. *)
Definition newline : Byte.byte := Byte.x0a.

Definition combine (serializedLogs : list (list Byte.byte)) : list Byte.byte :=
  foldl (fun buffer log => buffer ++ log ++ [newline]) [] serializedLogs.

(** The loop of [Flush] over the log groups, once client and converter
    are known to be there. *)
Fixpoint flushGroups (c : DorisLoadClient) (conv : Converter)
    (logGroupList : list LogGroup) (st : statistics) (w : World)
    : error * statistics * World * list Event :=
  match logGroupList with
  | [] => (None, st, w, [])
  | logGroup :: rest =>
      match ToByteStream conv logGroup with
      | Err err =>
          let '(e, st', w', evs) := flushGroups c conv rest st w in
          (e, st', w',
           Logged (Debug "[LogGroup] topic") ::
           Logged (Warning "FLUSHER_FLUSH_ALARM"
                     "flush doris convert log fail, error") :: evs)
      | Ok serializedLogs =>
          let buffer := combine serializedLogs in
          if bool_decide (length buffer = 0%nat) then
            let '(e, st', w', evs) := flushGroups c conv rest st w in
            (e, st', w',
             Logged (Debug "[LogGroup] topic") ::
             Logged (Debug "No logs to flush") :: evs)
          else
            match ClientLoad c buffer w with
            | (Err err, w1) =>
                (Some ("failed to load data to doris: " +:+ err), st, w1,
                 [Logged (Debug "[LogGroup] topic");
                  Logged (Debug "Loading data to Doris");
                  LoadCall buffer (Err err);
                  Logged (Warning "FLUSHER_FLUSH_ALARM"
                            "flush doris load fail, error")])
            | (Ok response, w1) =>
                if decide (Status response = SUCCESS) then
                  let st1 :=
                    updateStatistics st
                      (uint64 (LoadBytes (Resp response)))
                      (uint64 (NumberLoadedRows (Resp response))) in
                  let '(e, st', w', evs) := flushGroups c conv rest st1 w1 in
                  (e, st', w',
                   Logged (Debug "[LogGroup] topic") ::
                   Logged (Debug "Loading data to Doris") ::
                   LoadCall buffer (Ok response) ::
                   Logged (Info "Doris load success") :: evs)
                else
                  (Some ("doris load failed: " +:+ ErrorMessage response),
                   st, w1,
                   [Logged (Debug "[LogGroup] topic");
                    Logged (Debug "Loading data to Doris");
                    LoadCall buffer (Ok response);
                    Logged (Warning "FLUSHER_FLUSH_ALARM"
                              "doris load failed with status")])
            end
      end
  end.

(** How a call ends: it returns its [error], or it panics on a nil
    pointer. *)
Inductive Completion :=
| Returned (e : error)
| Panicked.

Definition Flush (f : FlusherDoris) (logGroupList : list LogGroup) (w : World)
    : Completion * FlusherDoris * World * list Event :=
  match dorisClient f with
  | None => (Returned (Some "doris client not initialized"), f, w, [])
  | Some c =>
      match converter f, logGroupList with
      | None, [] => (Returned None, f, w, [])
      | None, _ :: _ => (Panicked, f, w, [Logged (Debug "[LogGroup] topic")])
      | Some conv, _ =>
          let '(e, st, w', evs) := flushGroups c conv logGroupList (stats f) w in
          (Returned e, set_stats st f, w', evs)
      end
  end.

(** Observations used to state what [Flush] sent. *)
Definition loadCalls (evs : list Event)
    : list (list Byte.byte * result LoadResponse) :=
  omap (fun e => match e with LoadCall b r => Some (b, r) | _ => None end) evs.

Definition clientCreations (evs : list Event) : list Config :=
  omap (fun e => match e with ClientCreation c => Some c | _ => None end) evs.

Definition loadedOk (r : result LoadResponse) : bool :=
  match r with
  | Ok response => bool_decide (Status response = SUCCESS)
  | Err _ => false
  end.

(** The buffer [Flush] has to send for a log group, or [None] when the
    group is skipped (serialization failed, or nothing to send). *)
Definition payload (conv : Converter) (g : LogGroup) : option (list Byte.byte) :=
  match ToByteStream conv g with
  | Err _ => None
  | Ok logs => if bool_decide (length (combine logs) = 0%nat) then None
               else Some (combine logs)
  end.

(** A [Load] call that ended with a SUCCESS response, and the update of
    the statistics it causes. *)
Definition callOk (c : list Byte.byte * result LoadResponse) : Prop :=
  loadedOk c.2 = true.

Definition statsOp (c : list Byte.byte * result LoadResponse) : option Op :=
  match c.2 with
  | Ok response =>
      if decide (Status response = SUCCESS) then
        Some (Loaded (uint64 (LoadBytes (Resp response)))
                     (uint64 (NumberLoadedRows (Resp response))))
      else None
  | Err _ => None
  end.

End Flusher.

End doris.

(** ** Concrete configurations and worlds *)

Module examples.
Import load.

Definition content (status : string) (bytes rows : Z) : RespContent :=
  {| TxnID := 35063; RespLabel := ""; RespStatus := status;
     TwoPhaseCommit := ""; ExistingJobStatus := ""; Message := "";
     NumberTotalRows := rows; NumberLoadedRows := rows;
     NumberFilteredRows := 0; NumberUnselectedRows := 0;
     LoadBytes := bytes; LoadTimeMs := 11; BeginTxnTimeMs := 0;
     StreamLoadPutTimeMs := 0; ReadDataTimeMs := 0; WriteDataTimeMs := 0;
     CommitAndPublishTimeMs := 0; ErrorURL := "" |}.

Definition loaded (bytes rows : Z) : LoadResponse :=
  {| Status := SUCCESS; Resp := content "Success" bytes rows; ErrorMessage := "" |}.

Definition rejected : LoadResponse :=
  {| Status := FAILURE; Resp := content "Fail" 0 0;
     ErrorMessage := "too many filtered rows" |}.

Definition policy : Retry :=
  {| MaxRetryTimes := 10; BaseIntervalMs := 1000; MaxTotalTimeMs := 5000 |}.

(** Group commit on, with a label and a prefix configured, and an option
    named like the label header. *)
Definition asyncConfig : Config :=
  {| Endpoints := Some ["fe1:8030"; "fe2:8030"];
     User := "root"; Password := "secret";
     Database := "test_db"; Table := "test_table";
     LabelPrefix := "batch_load"; Label := "mylabel";
     ConfigFormat := DefaultJSONFormat;
     ConfigRetry := Some policy;
     GroupCommit := ASYNC;
     Options := <["label" := "other"]> {["strict_mode" := "true"]} |}.

Definition singleShot : Config :=
  {| Endpoints := Some ["fe1:8030"];
     User := "root"; Password := "secret";
     Database := "test_db"; Table := "test_table";
     LabelPrefix := ""; Label := "";
     ConfigFormat := DefaultJSONFormat;
     ConfigRetry := None;
     GroupCommit := OFF;
     Options := ∅ |}.

(** Three retries, one second base interval, a budget of an hour. *)
Definition threeRetries : Config :=
  {| Endpoints := Some ["fe1:8030"];
     User := "root"; Password := "secret";
     Database := "test_db"; Table := "test_table";
     LabelPrefix := ""; Label := "";
     ConfigFormat := DefaultJSONFormat;
     ConfigRetry :=
       Some {| MaxRetryTimes := 3; BaseIntervalMs := 1000; MaxTotalTimeMs := 3600000 |};
     GroupCommit := OFF;
     Options := ∅ |}.

(** Every attempt fails in transport at once. *)
Definition refused : loader.Env :=
  {| loader.now_ms := 1748938789999;
     loader.random_suffix := "e847dff4";
     loader.pick := fun i => i;
     loader.outcome := fun _ =>
       {| loader.dur := 0; loader.res := loader.TransportError "connection refused" |} |}.

(** Every attempt fails in transport after 700 milliseconds. *)
Definition unreachable : loader.Env :=
  {| loader.now_ms := 1748938789999;
     loader.random_suffix := "e847dff4";
     loader.pick := fun i => i;
     loader.outcome := fun _ =>
       {| loader.dur := 700; loader.res := loader.TransportError "connection refused" |} |}.

Definition ab : list Byte.byte := [Byte.x61; Byte.x62].

Definition pipe : replay.Reader :=
  replay.Stream {| replay.pending := ab; replay.failing := false; replay.drained := 0 |}.

Definition buffered : replay.BodyFunc :=
  replay.BufferBody ab
    {| replay.pending := []; replay.failing := false; replay.drained := 1 |}.

(** A world in which log groups are their own serialization and the server
    answers from a script. *)
Definition scripted : doris.Externals :=
  {| doris.LogGroup := list (list Byte.byte);
     doris.Converter := unit;
     doris.DorisLoadClient := Config;
     doris.World := list (result LoadResponse);
     doris.NewConverter := fun _ _ _ _ => Ok tt;
     doris.ToByteStream := fun _ g => Ok g;
     doris.NewLoadClient := fun cfg => Ok cfg;
     doris.ClientLoad := fun _ _ w =>
       match w with
       | [] => (Err "connection refused", [])
       | r :: w' => (r, w')
       end |}.

(** A flusher as [NewFlusherDoris] makes it, with addresses and table set
    but without credentials. *)
Definition fresh : @doris.FlusherDoris scripted :=
  {| doris.Addresses := Some ["127.0.0.1:8030"];
     doris.FlusherDatabase := "test_db";
     doris.FlusherAuthentication :=
       {| doris.PlainText :=
            Some {| doris.Username := ""; doris.Password := "password";
                    doris.PlainDatabase := "" |} |};
     doris.FlusherTable := "test_table";
     doris.LoadProperties := ∅;
     doris.LogProgressInterval := 10;
     doris.FlusherGroupCommit := "off";
     doris.dorisClient := None;
     doris.converter := None;
     doris.Convert :=
       {| doris.TagFieldsRename := ∅; doris.ProtocolFieldsRename := ∅;
          doris.Protocol := doris.ProtocolCustomSingle;
          doris.Encoding := doris.EncodingJSON |};
     doris.stats := doris.newStatistics 0;
     doris.progressTicker := None |}.

(** A flusher holding a client and a converter, as a successful [Init]
    leaves them. *)
Definition ready : @doris.FlusherDoris scripted :=
  @doris.set_dorisClient scripted (Some singleShot)
    (@doris.set_converter scripted (Some tt) fresh).

(** Three log groups, the second one without logs. *)
Definition groups : list (list (list Byte.byte)) :=
  [[ab]; []; [ab; ab]].

End examples.

(** ** The flusher: readiness, shutdown and the progress reporter *)

Module lifecycle.
Import load doris.

Section Lifecycle.
Context `{Externals}.

(** [IsReady] *)
Definition IsReady (f : FlusherDoris) : bool :=
  match dorisClient f with
  | Some _ => true
  | None => false
  end.

(** The configuration [initDorisClient] builds from the flusher and the
    credentials. *)
Definition sdkConfig (f : FlusherDoris) (username password : string) : Config :=
  {| Endpoints := Addresses f;
     User := username;
     load.Password := password;
     Database := FlusherDatabase f;
     Table := FlusherTable f;
     LabelPrefix := "LoongCollector_doris_flusher";
     Label := "";
     ConfigFormat := DefaultJSONFormat;
     ConfigRetry := Some DefaultRetry;
     GroupCommit := (parseGroupCommitMode (FlusherGroupCommit f)).1;
     Options := LoadProperties f |}.

(** Protocol and encoding after [Init] has filled in the defaults. *)
Definition effectiveProtocol (f : FlusherDoris) : string :=
  if decide (Protocol (Convert f) = "") then ProtocolCustomSingle
  else Protocol (Convert f).

Definition effectiveEncoding (f : FlusherDoris) : string :=
  if decide (Encoding (Convert f) = "") then EncodingJSON
  else Encoding (Convert f).

(** What lives beside the flusher while it runs: the channel [stopChan]
    (open or closed) and the progress goroutines registered with [wg]. *)
Record Runtime := {
  flusher : FlusherDoris;
  stopChanClosed : bool;
  reporters : nat
}.

(** The runtime after [NewFlusherDoris]: the channel is open, no goroutine
    runs. *)
Definition created (f : FlusherDoris) : Runtime :=
  {| flusher := f; stopChanClosed := false; reporters := 0 |}.

(** [startProgressLogging] on the runtime: the ticker is stored, [wg.Add(1)]
    and one goroutine. *)
Definition startProgressLogging (rt : Runtime) : Runtime :=
  {| flusher := set_progressTicker (Some (LogProgressInterval (flusher rt))) (flusher rt);
     stopChanClosed := stopChanClosed rt;
     reporters := S (reporters rt) |}.

(** The goroutine takes a tick from the ticker: one [logProgress]. *)
Definition tick (now : Z) (rt : Runtime) : Runtime * list ProgressLine :=
  match reporters rt with
  | O => (rt, [])
  | S _ =>
      let '(s, line) :=
        logProgress (stats (flusher rt)) (LogProgressInterval (flusher rt)) now in
      ({| flusher := set_stats s (flusher rt);
          stopChanClosed := stopChanClosed rt;
          reporters := reporters rt |}, [line])
  end.

Fixpoint ticks (times : list Z) (rt : Runtime) : Runtime * list ProgressLine :=
  match times with
  | [] => (rt, [])
  | now :: times' =>
      let '(rt1, l1) := tick now rt in
      let '(rt2, l2) := ticks times' rt1 in
      (rt2, l1 ++ l2)
  end.

(** [Stop].  With a ticker it closes [stopChan] (closing a closed channel
    panics), stops the ticker and waits for the goroutines; a goroutine may
    still take the ticks in [late], which were due when the channel was
    closed, before it sees the closed channel and returns. *)
Definition Stop (late : list Z) (rt : Runtime)
    : Completion * Runtime * list ProgressLine :=
  match progressTicker (flusher rt) with
  | None => (Returned None, rt, [])
  | Some _ =>
      if stopChanClosed rt then (Panicked, rt, [])
      else
        let rt1 := {| flusher := flusher rt; stopChanClosed := true;
                      reporters := reporters rt |} in
        let '(rt2, lines) := ticks late rt1 in
        (Returned None,
         {| flusher := flusher rt2; stopChanClosed := true; reporters := 0 |},
         lines)
  end.

(** The tickers started among the events of [Init]. *)
Definition tickerStarts (evs : list Event) : list Z :=
  omap (fun e => match e with TickerStarted s => Some s | _ => None end) evs.

(** [Init] on the runtime: one goroutine for each ticker [Init] started. *)
Definition InitRuntime (rt : Runtime) : error * Runtime * list Event :=
  let '(e, f', evs) := Init (flusher rt) in
  (e,
   {| flusher := f'; stopChanClosed := stopChanClosed rt;
      reporters := (reporters rt + length (tickerStarts evs))%nat |},
   evs).

(** The error [Flush] returns for the answer of a [Load] call that made it
    stop. *)
Definition loadError (r : result LoadResponse) : error :=
  match r with
  | Err err => Some ("failed to load data to doris: " +:+ err)
  | Ok response =>
      if decide (Status response = SUCCESS) then None
      else Some ("doris load failed: " +:+ ErrorMessage response)
  end.

(** The bytes and rows a [Load] call adds to the counters. *)
Definition loadedBytes (c : list Byte.byte * result LoadResponse) : Z :=
  match c.2 with
  | Ok response =>
      if decide (Status response = SUCCESS) then LoadBytes (Resp response) else 0
  | Err _ => 0
  end.

Definition loadedRows (c : list Byte.byte * result LoadResponse) : Z :=
  match c.2 with
  | Ok response =>
      if decide (Status response = SUCCESS) then NumberLoadedRows (Resp response)
      else 0
  | Err _ => 0
  end.

End Lifecycle.

Definition total (l : list Z) : Z := foldr Z.add 0 l.

(** The progress lines a sequence of operations on the statistics writes. *)
Fixpoint reportLines (ops : list Op) (s : statistics) : list ProgressLine :=
  match ops with
  | [] => []
  | Loaded b r :: ops' => reportLines ops' (updateStatistics s b r)
  | Report i t :: ops' =>
      (logProgress s i t).2 :: reportLines ops' (logProgress s i t).1
  end.

(** The windowed counters hold what was added to the lifetime counters since
    the last report, modulo [2^64]. *)
Definition windowed (s : statistics) : Prop :=
  lastBytes s = (totalBytes s - lastReportBytes s) `mod` two64 /\
  lastRows s = (totalRows s - lastReportRows s) `mod` two64.

(** Reading a buffer line by line: the lines that end in a newline, without
    it, and what is left after the last newline. *)
Fixpoint splitLines (line buffer : list Byte.byte)
    : list (list Byte.byte) * list Byte.byte :=
  match buffer with
  | [] => ([], line)
  | b :: rest =>
      if Byte.eqb b newline then
        let '(ls, tail) := splitLines [] rest in (line :: ls, tail)
      else splitLines (line ++ [b]) rest
  end.

End lifecycle.

(** ** plugins/flusher/doris/flusher_doris.go: the flusher before group
    commit became configurable and before the progress reporter

    The struct of that revision has the fields of [FlusherDoris] up to
    [Convert], without [LogProgressInterval] and [GroupCommit]; the
    functions below neither read nor write the fields it lacks. *)

Module legacy.
Import load doris.

Section Legacy.
Context `{Externals}.

Definition initDorisClient (f : FlusherDoris) : error * FlusherDoris * list Event :=
  match GetUsernamePassword (FlusherAuthentication f) with
  | Err err =>
      (Some ("failed to get authentication credentials: " +:+ err), f, [])
  | Ok (username, password) =>
      let config :=
        {| Endpoints := Addresses f;
           User := username;
           load.Password := password;
           Database := FlusherDatabase f;
           Table := FlusherTable f;
           LabelPrefix := "";
           Label := "";
           ConfigFormat := DefaultJSONFormat;
           ConfigRetry := Some DefaultRetry;
           GroupCommit := ASYNC;
           Options := LoadProperties f |} in
      match NewLoadClient config with
      | Err err =>
          (Some ("failed to create doris client: " +:+ err), f,
           [ClientCreation config])
      | Ok client =>
          (None, set_dorisClient (Some client) f,
           [ClientCreation config;
            Logged (Info "Doris client initialized successfully")])
      end
  end.

Definition Init (f : FlusherDoris) : error * FlusherDoris * list Event :=
  match Validate f with
  | (Some err, logs) =>
      (Some err, f,
       (Logged <$> logs) ++
       [Logged (Warning "FLUSHER_INIT_ALARM" "init doris flusher fail, error")])
  | (None, logs) =>
      let f1 :=
        if decide (Encoding (Convert f) = "") then
          set_Convert {| TagFieldsRename := TagFieldsRename (Convert f);
                         ProtocolFieldsRename := ProtocolFieldsRename (Convert f);
                         Protocol := Protocol (Convert f);
                         Encoding := EncodingJSON |} f
        else f in
      let f2 :=
        if decide (Protocol (Convert f1) = "") then
          set_Convert {| TagFieldsRename := TagFieldsRename (Convert f1);
                         ProtocolFieldsRename := ProtocolFieldsRename (Convert f1);
                         Protocol := ProtocolCustomSingle;
                         Encoding := Encoding (Convert f1) |} f1
        else f1 in
      match getConverter f2 with
      | (Err err, evs) =>
          (Some err, f2,
           (Logged <$> logs) ++ evs ++
           [Logged (Warning "FLUSHER_INIT_ALARM"
                      "init doris flusher converter fail, error")])
      | (Ok convert, evs) =>
          let f3 := set_converter (Some convert) f2 in
          match initDorisClient f3 with
          | (Some err, f4, evs') =>
              (Some err, f4,
               (Logged <$> logs) ++ evs ++ evs' ++
               [Logged (Warning "FLUSHER_INIT_ALARM"
                          "init doris client fail, error")])
          | (None, f4, evs') => (None, f4, (Logged <$> logs) ++ evs ++ evs')
          end
      end
  end.

(** The loop of [Flush]; this revision keeps no statistics. *)
Fixpoint flushGroups (c : DorisLoadClient) (conv : Converter)
    (logGroupList : list LogGroup) (w : World) : error * World * list Event :=
  match logGroupList with
  | [] => (None, w, [])
  | logGroup :: rest =>
      match ToByteStream conv logGroup with
      | Err err =>
          let '(e, w', evs) := flushGroups c conv rest w in
          (e, w',
           Logged (Debug "[LogGroup] topic") ::
           Logged (Warning "FLUSHER_FLUSH_ALARM"
                     "flush doris convert log fail, error") :: evs)
      | Ok serializedLogs =>
          let buffer := combine serializedLogs in
          if bool_decide (length buffer = 0%nat) then
            let '(e, w', evs) := flushGroups c conv rest w in
            (e, w',
             Logged (Debug "[LogGroup] topic") ::
             Logged (Debug "No logs to flush") :: evs)
          else
            match ClientLoad c buffer w with
            | (Err err, w1) =>
                (Some ("failed to load data to doris: " +:+ err), w1,
                 [Logged (Debug "[LogGroup] topic");
                  Logged (Debug "Loading data to Doris");
                  LoadCall buffer (Err err);
                  Logged (Warning "FLUSHER_FLUSH_ALARM"
                            "flush doris load fail, error")])
            | (Ok response, w1) =>
                if decide (Status response = SUCCESS) then
                  let '(e, w', evs) := flushGroups c conv rest w1 in
                  (e, w',
                   Logged (Debug "[LogGroup] topic") ::
                   Logged (Debug "Loading data to Doris") ::
                   LoadCall buffer (Ok response) ::
                   Logged (Info "Doris load success") :: evs)
                else
                  (Some ("doris load failed: " +:+ ErrorMessage response), w1,
                   [Logged (Debug "[LogGroup] topic");
                    Logged (Debug "Loading data to Doris");
                    LoadCall buffer (Ok response);
                    Logged (Warning "FLUSHER_FLUSH_ALARM"
                              "doris load failed with status")])
            end
      end
  end.

Definition Flush (f : FlusherDoris) (logGroupList : list LogGroup) (w : World)
    : Completion * FlusherDoris * World * list Event :=
  match dorisClient f with
  | None => (Returned (Some "doris client not initialized"), f, w, [])
  | Some c =>
      match converter f, logGroupList with
      | None, [] => (Returned None, f, w, [])
      | None, _ :: _ => (Panicked, f, w, [Logged (Debug "[LogGroup] topic")])
      | Some conv, _ =>
          let '(e, w', evs) := flushGroups c conv logGroupList w in
          (Returned e, f, w', evs)
      end
  end.

(** [Stop] of this revision has nothing to stop. *)
Definition Stop (f : FlusherDoris) : error * FlusherDoris := (None, f).

End Legacy.

End legacy.

(** ** performance_test/run_perf_large.go: a fixed volume loaded in batches *)

Module perf.

(** [int64] results wrap around. *)
Definition wrap64 (z : Z) : Z := (z + 2 ^ 63) `mod` 2 ^ 64 - 2 ^ 63.

(** The number of batches as [main] computes it,
    [(totalRecords + batchSize - 1) / batchSize]; dividing by zero panics,
    which is [None]. *)
Definition mainTotalBatches (totalRecords batchSize : Z) : option Z :=
  if decide (batchSize = 0) then None
  else Some (wrap64 (Z.quot (wrap64 (wrap64 (totalRecords + batchSize) - 1)) batchSize)).

(** The number of batches as [runFixedVolumeTest] computes it. *)
Definition totalBatches (totalRecords batchSize : Z) : option Z :=
  if decide (batchSize = 0) then None
  else
    let n := wrap64 (Z.quot totalRecords batchSize) in
    if decide (Z.rem totalRecords batchSize <> 0) then Some (wrap64 (n + 1))
    else Some n.

(** The records of batch [batchID]: the last batch takes the remainder when
    there is one. *)
Definition currentBatchSize (totalRecords batchSize nBatches batchID : Z) : Z :=
  if decide (batchID = nBatches - 1 /\ Z.rem totalRecords batchSize <> 0)
  then Z.rem totalRecords batchSize
  else batchSize.

(** The counters the workers add to with [atomic.AddInt64]. *)
Record Counters := {
  processedRecords : Z;
  totalBytes : Z;
  completedBatches : Z;
  failedBatches : Z
}.

Definition zero : Counters :=
  {| processedRecords := 0; totalBytes := 0; completedBatches := 0;
     failedBatches := 0 |}.

(** One batch taken from the channel by a worker.  [dataSize] is the length
    of the data generated beforehand for a full batch, [generated] the length
    of the data generated for a given number of records, [ok] says whether
    the load of the batch came back without error and with status SUCCESS. *)
Definition work (totalRecords batchSize nBatches dataSize : Z)
    (generated : Z -> Z) (ok : Z -> bool) (c : Counters) (batchID : Z)
    : Counters :=
  let size := currentBatchSize totalRecords batchSize nBatches batchID in
  let currentDataSize :=
    if decide (batchID = nBatches - 1 /\ Z.rem totalRecords batchSize <> 0)
    then generated size else dataSize in
  let bytes := wrap64 (totalBytes c + currentDataSize) in
  if ok batchID then
    {| processedRecords := wrap64 (processedRecords c + size);
       totalBytes := bytes;
       completedBatches := wrap64 (completedBatches c + 1);
       failedBatches := failedBatches c |}
  else
    {| processedRecords := processedRecords c;
       totalBytes := bytes;
       completedBatches := completedBatches c;
       failedBatches := wrap64 (failedBatches c + 1) |}.

(** The batch ids put on the channel, [0] to [nBatches - 1]. *)
Definition batchIDs (nBatches : Z) : list Z :=
  Z.of_nat <$> seq 0 (Z.to_nat nBatches).

(** The counters when all workers are done; [order] is the order in which
    the additions of the batches took effect.  A channel of negative size
    cannot be made: that panics, like the division by zero. *)
Definition runFixedVolumeTest (totalRecords batchSize dataSize : Z)
    (generated : Z -> Z) (ok : Z -> bool) (order : list Z) : option Counters :=
  match totalBatches totalRecords batchSize with
  | None => None
  | Some n =>
      if decide (n < 0) then None
      else Some (foldl (work totalRecords batchSize n dataSize generated ok)
                   zero order)
  end.

(** The sum of a list of integers. *)
Definition sum (l : list Z) : Z := foldr Z.add 0 l.

End perf.

(** ** test/engine/setup/subscriber/doris.go: reading the records back *)

Module subscriber.

(** [sql.NullString] *)
Record NullString := {
  NString : string;
  Valid : bool
}.

(** One row of the answer to the query, as [rows.Scan] delivers it, or the
    error of [rows.Scan]. *)
Record Row := {
  timestamp : Z;
  content : NullString;
  value : NullString
}.

Inductive Scan :=
| Scanned (r : Row)
| ScanFailed (err : string).

(** What the database answers: the query fails, or it delivers rows and, at
    the end, the error of the iteration if there was one. *)
Inductive Answer :=
| QueryFailed (err : string)
| Rows (rows : list Scan) (rowsErr : error).

Record Log_Content := {
  Key : string;
  Value : string
}.

Record Log := {
  Time : Z;
  Contents : list Log_Content
}.

(** [uint32(timestamp)] keeps the low 32 bits. *)
Definition uint32 (z : Z) : Z := z `mod` 2 ^ 32.

Definition logOf (r : Row) : Log :=
  {| Time := uint32 (timestamp r);
     Contents :=
       (if Valid (content r)
        then [{| Key := "content"; Value := NString (content r) |}] else []) ++
       (if Valid (value r)
        then [{| Key := "value"; Value := NString (value r) |}] else []) |}.

(** The loop [for rows.Next()] of [queryRecords]: the logs so far, the last
    timestamp, and the error that ended the loop. *)
Fixpoint scanRows (rows : list Scan) (logs : list Log) (lastTimestamp : Z)
    : list Log * Z * error :=
  match rows with
  | [] => (logs, lastTimestamp, None)
  | ScanFailed err :: _ => (logs, lastTimestamp, Some err)
  | Scanned r :: rest =>
      scanRows rest (logs ++ [logOf r])
        (if bool_decide (timestamp r > lastTimestamp) then timestamp r
         else lastTimestamp)
  end.

(** [queryRecords]: the log group (its logs), the subscriber's
    [lastTimestamp] afterwards, and the error. *)
Definition queryRecords (lastTimestamp : Z) (a : Answer) : list Log * Z * error :=
  match a with
  | QueryFailed err => ([], lastTimestamp, Some err)
  | Rows rows rowsErr =>
      match scanRows rows [] lastTimestamp with
      | (logs, last, Some err) => (logs, last, Some err)
      | (logs, last, None) => (logs, last, rowsErr)
      end
  end.

(** The rows scanned before the first failure. *)
Fixpoint scannedRows (rows : list Scan) : list Row :=
  match rows with
  | Scanned r :: rest => r :: scannedRows rest
  | _ => []
  end.

End subscriber.

(** ** The statistics, one atomic operation at a time *)

Module atomics.
Import doris.

(** What [logProgress] holds in local variables between its operations on
    the statistics: the lifetime counters it loaded and the windowed
    counters it swapped out. *)
Record Locals := {
  readBytes : Z;
  readRows : Z;
  swappedBytes : Z;
  swappedRows : Z
}.

(** The operations on the statistics, one at a time: the four
    [atomic.AddUint64] of [updateStatistics], which are made without
    [stats.mu]; and of [logProgress] the two [atomic.LoadUint64], the two
    [atomic.SwapUint64], and the assignment of the report fields together
    with the line it logs. *)
Inductive Step :=
| AddTotalBytes (bytes : Z)
| AddTotalRows (rows : Z)
| AddLastBytes (bytes : Z)
| AddLastRows (rows : Z)
| LoadTotalBytes
| LoadTotalRows
| SwapLastBytes
| SwapLastRows
| StoreReport (interval now : Z).

Definition exec (st : statistics * Locals) (a : Step)
    : statistics * Locals * list ProgressLine :=
  let '(s, l) := st in
  match a with
  | AddTotalBytes b =>
      ({| startTime := startTime s;
          totalBytes := add64 (totalBytes s) b;
          totalRows := totalRows s;
          lastBytes := lastBytes s;
          lastRows := lastRows s;
          lastReportTime := lastReportTime s;
          lastReportBytes := lastReportBytes s;
          lastReportRows := lastReportRows s |}, l, [])
  | AddTotalRows r =>
      ({| startTime := startTime s;
          totalBytes := totalBytes s;
          totalRows := add64 (totalRows s) r;
          lastBytes := lastBytes s;
          lastRows := lastRows s;
          lastReportTime := lastReportTime s;
          lastReportBytes := lastReportBytes s;
          lastReportRows := lastReportRows s |}, l, [])
  | AddLastBytes b =>
      ({| startTime := startTime s;
          totalBytes := totalBytes s;
          totalRows := totalRows s;
          lastBytes := add64 (lastBytes s) b;
          lastRows := lastRows s;
          lastReportTime := lastReportTime s;
          lastReportBytes := lastReportBytes s;
          lastReportRows := lastReportRows s |}, l, [])
  | AddLastRows r =>
      ({| startTime := startTime s;
          totalBytes := totalBytes s;
          totalRows := totalRows s;
          lastBytes := lastBytes s;
          lastRows := add64 (lastRows s) r;
          lastReportTime := lastReportTime s;
          lastReportBytes := lastReportBytes s;
          lastReportRows := lastReportRows s |}, l, [])
  | LoadTotalBytes =>
      (s, {| readBytes := totalBytes s; readRows := readRows l;
             swappedBytes := swappedBytes l; swappedRows := swappedRows l |}, [])
  | LoadTotalRows =>
      (s, {| readBytes := readBytes l; readRows := totalRows s;
             swappedBytes := swappedBytes l; swappedRows := swappedRows l |}, [])
  | SwapLastBytes =>
      ({| startTime := startTime s;
          totalBytes := totalBytes s;
          totalRows := totalRows s;
          lastBytes := 0;
          lastRows := lastRows s;
          lastReportTime := lastReportTime s;
          lastReportBytes := lastReportBytes s;
          lastReportRows := lastReportRows s |},
       {| readBytes := readBytes l; readRows := readRows l;
          swappedBytes := lastBytes s; swappedRows := swappedRows l |}, [])
  | SwapLastRows =>
      ({| startTime := startTime s;
          totalBytes := totalBytes s;
          totalRows := totalRows s;
          lastBytes := lastBytes s;
          lastRows := 0;
          lastReportTime := lastReportTime s;
          lastReportBytes := lastReportBytes s;
          lastReportRows := lastReportRows s |},
       {| readBytes := readBytes l; readRows := readRows l;
          swappedBytes := swappedBytes l; swappedRows := lastRows s |}, [])
  | StoreReport interval now =>
      ({| startTime := startTime s;
          totalBytes := totalBytes s;
          totalRows := totalRows s;
          lastBytes := lastBytes s;
          lastRows := lastRows s;
          lastReportTime := Some now;
          lastReportBytes := readBytes l;
          lastReportRows := readRows l |}, l,
       [{| lineTotalBytes := readBytes l; lineTotalRows := readRows l;
           lineLastBytes := swappedBytes l; lineLastRows := swappedRows l;
           lineInterval := interval |}])
  end.

Fixpoint runSteps (steps : list Step) (st : statistics * Locals)
    : statistics * Locals * list ProgressLine :=
  match steps with
  | [] => (st, [])
  | a :: steps' =>
      let '(st1, l1) := exec st a in
      let '(st2, l2) := runSteps steps' st1 in
      (st2, l1 ++ l2)
  end.

(** The operations of one call of [updateStatistics] and of one call of
    [logProgress], in program order. *)
Definition updateStatistics (bytes rows : Z) : list Step :=
  [AddTotalBytes bytes; AddTotalRows rows; AddLastBytes bytes; AddLastRows rows].

Definition logProgress (interval now : Z) : list Step :=
  [LoadTotalBytes; LoadTotalRows; SwapLastBytes; SwapLastRows;
   StoreReport interval now].

Definition stepsOf (o : Op) : list Step :=
  match o with
  | Loaded b r => updateStatistics b r
  | Report i t => logProgress i t
  end.

(** The schedule in which the calls follow one another: no operation of a
    call falls between two operations of another call. *)
Definition sequential (ops : list Op) : list Step :=
  concat (stepsOf <$> ops).

End atomics.

(** ** Header names *)

Module headers.

(** Modelled from the spec: the label header (4.3, 6).  HTTP header names
    do not distinguish letter case, so a header is a label header when its
    name is [label] in any letter case. *)
Definition isLabel (name : string) : Prop := doris.ToLower name = "label".

End headers.

(** ** Flushers, runtimes and readers the properties are exercised on *)

Module scenarios.
Import load.

(** The flusher of [examples.fresh] with a user name: [Init] succeeds on
    it. *)
Definition configured : @doris.FlusherDoris examples.scripted :=
  {| doris.Addresses := Some ["127.0.0.1:8030"];
     doris.FlusherDatabase := "test_db";
     doris.FlusherAuthentication :=
       {| doris.PlainText :=
            Some {| doris.Username := "root"; doris.Password := "password";
                    doris.PlainDatabase := "" |} |};
     doris.FlusherTable := "test_table";
     doris.LoadProperties := ∅;
     doris.LogProgressInterval := 10;
     doris.FlusherGroupCommit := "off";
     doris.dorisClient := None;
     doris.converter := None;
     doris.Convert :=
       {| doris.TagFieldsRename := ∅; doris.ProtocolFieldsRename := ∅;
          doris.Protocol := ""; doris.Encoding := "" |};
     doris.stats := doris.newStatistics 0;
     doris.progressTicker := None |}.

(** The same flusher with progress logging switched off. *)
Definition quiet : @doris.FlusherDoris examples.scripted :=
  {| doris.Addresses := Some ["127.0.0.1:8030"];
     doris.FlusherDatabase := "test_db";
     doris.FlusherAuthentication :=
       {| doris.PlainText :=
            Some {| doris.Username := "root"; doris.Password := "password";
                    doris.PlainDatabase := "" |} |};
     doris.FlusherTable := "test_table";
     doris.LoadProperties := ∅;
     doris.LogProgressInterval := 0;
     doris.FlusherGroupCommit := "off";
     doris.dorisClient := None;
     doris.converter := None;
     doris.Convert :=
       {| doris.TagFieldsRename := ∅; doris.ProtocolFieldsRename := ∅;
          doris.Protocol := ""; doris.Encoding := "" |};
     doris.stats := doris.newStatistics 0;
     doris.progressTicker := None |}.

(** A running flusher: client, converter and ticker are set, the channel is
    open and one reporter runs. *)
Definition running : @lifecycle.Runtime examples.scripted :=
  {| lifecycle.flusher :=
       @doris.set_progressTicker examples.scripted (Some 10) examples.ready;
     lifecycle.stopChanClosed := false;
     lifecycle.reporters := 1 |}.

(** A world in which no client can be created. *)
Definition offline : doris.Externals :=
  {| doris.LogGroup := list (list Byte.byte);
     doris.Converter := unit;
     doris.DorisLoadClient := Config;
     doris.World := unit;
     doris.NewConverter := fun _ _ _ _ => Ok tt;
     doris.ToByteStream := fun _ g => Ok g;
     doris.NewLoadClient := fun _ => Err "no endpoints";
     doris.ClientLoad := fun _ _ w => (Err "connection refused", w) |}.

Definition stranded : @doris.FlusherDoris offline :=
  {| doris.Addresses := Some ["127.0.0.1:8030"];
     doris.FlusherDatabase := "test_db";
     doris.FlusherAuthentication :=
       {| doris.PlainText :=
            Some {| doris.Username := "root"; doris.Password := "password";
                    doris.PlainDatabase := "" |} |};
     doris.FlusherTable := "test_table";
     doris.LoadProperties := ∅;
     doris.LogProgressInterval := 10;
     doris.FlusherGroupCommit := "off";
     doris.dorisClient := None;
     doris.converter := None;
     doris.Convert :=
       {| doris.TagFieldsRename := ∅; doris.ProtocolFieldsRename := ∅;
          doris.Protocol := doris.ProtocolCustomSingle;
          doris.Encoding := doris.EncodingJSON |};
     doris.stats := doris.newStatistics 0;
     doris.progressTicker := None |}.

(** An open file of two bytes, and the same file closed. *)
Definition file : replay.SeekReader :=
  {| replay.content := examples.ab; replay.offset := 0; replay.closed := false |}.

Definition closedFile : replay.SeekReader :=
  {| replay.content := examples.ab; replay.offset := 0; replay.closed := true |}.

(** The server's script for [examples.groups]: the first load is taken, the
    second is rejected. *)
Definition script : list (result LoadResponse) :=
  [Ok (examples.loaded 3 1); Ok examples.rejected].

(** Loads and reports on the statistics. *)
Definition traffic : list doris.Op :=
  [doris.Loaded 197 2; doris.Report 10 5; doris.Loaded 100 1].

End scenarios.

(** * Properties

    ** The shared HTTP client *)

(** C8: [buildHttpClient] configures the shared transport with finite
    bounds: 30 idle connections per host, 50 connections per host, 50 idle
    connections in total, and a total request timeout of 120 seconds. *)
Theorem buildHttpClient_bounds :
  forall p : util.Package,
    let '(c, p') := util.buildHttpClient p in
    exists cl,
      util.store p' !! c = Some cl /\
      util.MaxIdleConnsPerHost (util.ClientTransport cl) = 30 /\
      util.MaxConnsPerHost (util.ClientTransport cl) = 50 /\
      util.MaxIdleConns (util.ClientTransport cl) = 50 /\
      util.Timeout cl = 120 * util.Second /\
      util.Timeout cl = 120000000000.
Proof.
  intros p. unfold util.buildHttpClient. cbn.
  exists util.builtClient. split.
  - rewrite lookup_app_r by lia. by rewrite Nat.sub_diag.
  - by repeat split.
Qed.

Lemma calls_once (n : nat) (p : util.Package) (c : util.ptr) :
  util.once p = true -> util.client p = Some c ->
  util.calls n p = (replicate n (Some c), p).
Proof.
  intros Hon Hc. induction n as [|n IH]; cbn; [done|].
  unfold util.GetHttpClient. rewrite Hon, IH, Hc. done.
Qed.

(** C5: every call of [GetHttpClient] in a process returns the same client
    instance, and [buildHttpClient] runs at most once, on the first call: the
    store holds no client before it and exactly one ever after. *)
Theorem GetHttpClient_singleton :
  forall n : nat,
    let '(cs, p) := util.calls n util.initial in
    cs = replicate n (Some 0%nat) /\
    length (util.store p) = Nat.min n 1 /\
    (forall c, c ∈ cs -> exists cl, c = Some 0%nat /\ util.store p !! 0%nat = Some cl).
Proof.
  intros [|n].
  { cbn. repeat split. intros c Hc. by apply elem_of_nil in Hc. }
  cbn [util.calls]. unfold util.GetHttpClient at 1. cbn.
  erewrite calls_once by reflexivity. cbn. split; [done|]. split; [lia|].
  intros c Hc. exists util.builtClient. split; [|done].
  apply elem_of_cons in Hc as [->|Hc]; [done|].
  by apply elem_of_replicate in Hc as [-> _].
Qed.

(** ** The submission: observations on traces *)

Section TraceFacts.
Import loader.

Lemma requests_app (t1 t2 : list Event) : requests (t1 ++ t2) = requests t1 ++ requests t2.
Proof. apply omap_app. Qed.

Lemma sleeps_app (t1 t2 : list Event) : sleeps (t1 ++ t2) = sleeps t1 ++ sleeps t2.
Proof. apply omap_app. Qed.

Lemma warnings_app (t1 t2 : list Event) : warnings (t1 ++ t2) = warnings t1 ++ warnings t2.
Proof. apply omap_app. Qed.

Lemma sumZ_app (l1 l2 : list Z) : sumZ (l1 ++ l2) = sumZ l1 + sumZ l2.
Proof. unfold sumZ. induction l1 as [|x l1 IH]; cbn; [done|]. rewrite IH. lia. Qed.

Lemma timeOf_app (t1 t2 : list Event) : timeOf (t1 ++ t2) = timeOf t1 + timeOf t2.
Proof. unfold timeOf. by rewrite fmap_app, sumZ_app. Qed.

Lemma timeOf_single (e : Event) : timeOf [e] = duration e.
Proof. unfold timeOf, sumZ. cbn. lia. Qed.

Lemma requests_warn (ws : list Warning) : requests (EvWarn <$> ws) = [].
Proof. unfold requests. induction ws; cbn; auto. Qed.

Lemma sleeps_warn (ws : list Warning) : sleeps (EvWarn <$> ws) = [].
Proof. unfold sleeps. induction ws; cbn; auto. Qed.

Lemma warnings_warn (ws : list Warning) : warnings (EvWarn <$> ws) = ws.
Proof. unfold warnings. induction ws as [|w ws IH]; cbn; [done|]. by rewrite IH. Qed.

Lemma timeOf_warn (ws : list Warning) : timeOf (EvWarn <$> ws) = 0.
Proof. unfold timeOf, sumZ. induction ws as [|w ws IH]; cbn; [done|]. by rewrite IH. Qed.

Lemma requests_single (e : Event) :
  requests [e] = match e with EvAttempt req _ _ => [req] | _ => [] end.
Proof. by destruct e. Qed.

Lemma sleeps_single (e : Event) :
  sleeps [e] = match e with EvSleep d => [d] | _ => [] end.
Proof. by destruct e. Qed.

Lemma warnings_single (e : Event) :
  warnings [e] = match e with EvWarn w => [w] | _ => [] end.
Proof. by destruct e. Qed.

End TraceFacts.

Create Rewrite HintDb trace.
#[export] Hint Rewrite requests_app sleeps_app warnings_app timeOf_app
  requests_warn sleeps_warn warnings_warn timeOf_warn
  requests_single sleeps_single warnings_single timeOf_single
  @length_app sumZ_app : trace.

Section Orchestrator.
Import load loader.

Variable defaultLabelPrefix : string.
Variable cfg : Config.
Variable env : Env.
Variable body : list Byte.byte.

Local Abbreviation step := (loader.step defaultLabelPrefix cfg env body).
Local Abbreviation run n := (loader.run defaultLabelPrefix n cfg env body).
Local Abbreviation Inv := (loader.Inv cfg).
Local Abbreviation Bounded := (loader.Bounded cfg).
Local Abbreviation Unlabelled := (loader.Unlabelled cfg).
Local Abbreviation measure := (loader.measure cfg).

Lemma run_preserves (P : Machine -> Prop) :
  (forall m, P m -> P (step m)) -> forall n m, P m -> P (run n m).
Proof.
  intros Hstep n. induction n as [|n IH]; intros m Hm; cbn; [done|].
  apply IH, Hstep, Hm.
Qed.

Lemma Inv_start : Inv start.
Proof. by cbn. Qed.

Lemma Inv_step (m : Machine) : Inv m -> Inv (step m).
Proof.
  destruct m as [ph l k el tr]. unfold loader.Inv, loader.step; cbn.
  intros (Hreq & Htime & Hph). destruct ph; cbn in *.
  - destruct Hph as [-> ->].
    destruct (labelFor _ _ _ _ _) as [l' ws]; cbn.
    by autorewrite with trace.
  - destruct (succeeded _) as [r|]; cbn; autorewrite with trace; cbn.
    + repeat split; lia.
    + destruct (withinBudget _ _ _) eqn:Hb; cbn; repeat split; lia.
  - destruct Hph as [Hs Hb]. destruct (ConfigRetry cfg) as [p|]; [|done]. cbn.
    autorewrite with trace; cbn. repeat split; lia.
  - done.
  - done.
Qed.

Lemma Inv_run (n : nat) : Inv (run n start).
Proof. apply run_preserves; [apply Inv_step | apply Inv_start]. Qed.

(** Termination: every step of a running machine lowers the measure. *)
Lemma step_measure (m : Machine) :
  Inv m -> terminal (phase m) = false -> (measure (step m) < measure m)%nat.
Proof.
  destruct m as [ph l k el tr]. unfold loader.Inv, loader.measure, loader.step; cbn.
  intros (_ & _ & Hph) Hterm. destruct ph; cbn in *; try done.
  - destruct (labelFor _ _ _ _ _); cbn. lia.
  - destruct (succeeded _); cbn; [lia|].
    destruct (withinBudget _ _ _) eqn:Hb; cbn; [|lia].
    unfold withinBudget in Hb. destruct (ConfigRetry cfg) as [p|]; [|done].
    apply andb_prop in Hb as [Hb _]. apply bool_decide_eq_true in Hb. lia.
  - destruct Hph as [_ Hb]. destruct (ConfigRetry cfg) as [p|]; [|done]. cbn. lia.
Qed.

Lemma step_terminal (m : Machine) : terminal (phase m) = true -> step m = m.
Proof. destruct m as [[] ? ? ? ?]; cbn; done. Qed.

Lemma run_terminal (n : nat) (m : Machine) : terminal (phase m) = true -> run n m = m.
Proof.
  intros Hm. induction n as [|n IH]; cbn; [done|]. by rewrite step_terminal.
Qed.

Lemma run_terminates (n : nat) (m : Machine) :
  Inv m -> (measure m <= n)%nat -> terminal (phase (run n m)) = true.
Proof.
  revert m. induction n as [|n IH]; intros m Hinv Hle; cbn.
  - destruct m as [[] ? ? ? ?]; unfold loader.measure in Hle; cbn in *; try done; lia.
  - destruct (terminal (phase m)) eqn:Hterm.
    + rewrite step_terminal by done. by rewrite run_terminal.
    + apply IH; [by apply Inv_step|]. pose proof (step_measure m Hinv Hterm). lia.
Qed.

Lemma Load_terminates : terminal (phase (Load defaultLabelPrefix cfg env body)) = true.
Proof.
  apply run_terminates; [apply Inv_start|].
  unfold loader.measure, budgetSteps; cbn. destruct (ConfigRetry cfg); lia.
Qed.

(** ** Attempt count *)

Lemma Bounded_step (m : Machine) :
  (forall p, ConfigRetry cfg = Some p -> 0 <= MaxRetryTimes p) ->
  Inv m -> Bounded m -> Bounded (step m).
Proof.
  intros HN (_ & _ & Hph). destruct m as [ph l k el tr].
  unfold loader.Bounded, loader.step, withinBudget in *; cbn in *.
  destruct (ConfigRetry cfg) as [p|] eqn:Hp.
  - specialize (HN p eq_refl). destruct ph; cbn; try done.
    + destruct (labelFor _ _ _ _ _); cbn. lia.
    + intros Hk. destruct (succeeded _); cbn; [lia|].
      destruct (bool_decide (Z.of_nat (S k) - 1 < _)) eqn:Hb; cbn.
      * apply bool_decide_eq_true in Hb. destruct (bool_decide _); cbn; lia.
      * lia.
  - destruct ph; cbn; try done.
    + by destruct (labelFor _ _ _ _ _).
    + intros ->. destruct (succeeded _); cbn; autorewrite with trace; cbn;
        (split; [done|]); destruct (sleeps tr); cbn in *; done.
Qed.

(** ** Backoff schedule *)

Lemma snoc_split {A} (tr pre post : list A) (e x : A) :
  tr ++ [e] = pre ++ x :: post ->
  (post = [] /\ pre = tr /\ x = e) \/
  (exists post', post = post' ++ [e] /\ tr = pre ++ x :: post').
Proof.
  destruct post as [|y post _] using rev_ind; intros Heq.
  - left. apply app_inj_tail in Heq as [-> ->]. done.
  - right. exists post.
    change (x :: post ++ [y]) with ((x :: post) ++ [y]) in Heq.
    rewrite app_assoc in Heq. apply app_inj_tail in Heq as [-> ->]. done.
Qed.

Lemma Scheduled_other (p : Retry) (tr : list Event) (e : Event) :
  (forall d, e <> EvSleep d) -> Scheduled p tr -> Scheduled p (tr ++ [e]).
Proof.
  intros He Htr pre d post Heq.
  apply snoc_split in Heq as [(_ & _ & Hx)|(post' & _ & ->)].
  - by destruct (He d).
  - by eapply Htr.
Qed.

Lemma Scheduled_sleep (p : Retry) (tr : list Event) (d : Z) :
  d = Z.min (BaseIntervalMs p * 2 ^ (Z.of_nat (S (length (sleeps tr))) - 1))
            (MaxTotalTimeMs p - timeOf tr) ->
  Scheduled p tr -> Scheduled p (tr ++ [EvSleep d]).
Proof.
  intros Hd Htr pre d' post Heq.
  apply snoc_split in Heq as [(_ & -> & [= ->])|(post' & _ & ->)].
  - done.
  - by eapply Htr.
Qed.

Lemma Scheduled_warn (p : Retry) (ws : list Warning) : Scheduled p (EvWarn <$> ws).
Proof.
  intros pre d post Heq.
  assert (Hin : EvSleep d ∈ EvWarn <$> ws) by (rewrite Heq; set_solver).
  apply list_elem_of_fmap in Hin as (w & [=] & _).
Qed.

Lemma Scheduled_step (p : Retry) (m : Machine) :
  ConfigRetry cfg = Some p ->
  Inv m -> Scheduled p (trace m) -> Scheduled p (trace (step m)).
Proof.
  intros Hp (_ & Htime & Hph) Hs. destruct m as [ph l k el tr].
  unfold loader.step; cbn in *. destruct ph; cbn; try done.
  - destruct Hph as [_ ->]. destruct (labelFor _ _ _ _ _); cbn.
    apply Scheduled_warn.
  - destruct (succeeded _); cbn; by apply Scheduled_other.
  - rewrite Hp; cbn. apply Scheduled_sleep; [|done].
    destruct Hph as [<- _]. unfold backoffInterval. by rewrite Htime.
Qed.

Lemma Capped_step (p : Retry) (m : Machine) :
  ConfigRetry cfg = Some p ->
  (forall i, 0 <= dur (outcome env i)) ->
  Inv m -> Capped p m -> Capped p (step m).
Proof.
  intros Hp Hdur (_ & _ & Hph) [Hel HT]. destruct m as [ph l k el tr].
  unfold Capped, loader.step in *; cbn in *. destruct ph; cbn; try done.
  - destruct Hph as [_ ->]. destruct (labelFor _ _ _ _ _); cbn.
    autorewrite with trace. unfold sleeps, sumZ in *. cbn in *. lia.
  - specialize (Hdur k).
    destruct (succeeded _); cbn; autorewrite with trace;
      unfold sumZ at 2 4; cbn; lia.
  - rewrite Hp; cbn. autorewrite with trace.
    unfold sumZ at 2 4, backoffInterval; cbn. lia.
Qed.

(** ** Label suppression *)

Ltac other_name Hl :=
  let Heq := fresh in
  intros Heq; rewrite <- Heq in Hl; vm_compute in Hl; discriminate Hl.

Lemma formatHeaders_no_label (f : Format) (name : string) :
  headers.isLabel name -> formatHeaders f !! name = None.
Proof.
  intros Hl. unfold headers.isLabel in Hl.
  destruct f as [[]|]; unfold formatHeaders.
  - rewrite lookup_insert_ne by other_name Hl.
    apply lookup_singleton_ne. other_name Hl.
  - rewrite lookup_insert_ne by other_name Hl.
    apply lookup_singleton_ne. other_name Hl.
  - rewrite !lookup_insert_ne by other_name Hl.
    apply lookup_singleton_ne. other_name Hl.
Qed.

Lemma protocolHeaders_no_label (name : string) :
  headers.isLabel name -> protocolHeaders cfg None !! name = None.
Proof.
  intros Hl. unfold protocolHeaders, labelHeaders.
  rewrite lookup_insert_ne by (unfold headers.isLabel in Hl; other_name Hl).
  apply lookup_union_None_2; [apply lookup_union_None_2|apply lookup_empty].
  - by apply formatHeaders_no_label.
  - unfold headers.isLabel in Hl. unfold groupCommitHeaders.
    destruct (GroupCommit cfg); cbv beta iota;
      first [apply lookup_empty | apply lookup_singleton_ne; other_name Hl].
Qed.

Lemma build_no_label (ep : option string) (name : string) :
  headers.isLabel name ->
  req_headers (build cfg None body ep) !! name = Options cfg !! name.
Proof.
  intros Hl. unfold build; cbn.
  rewrite lookup_union_r; [done|]. by apply protocolHeaders_no_label.
Qed.

Lemma Unlabelled_step (m : Machine) :
  GroupCommit cfg <> OFF -> Unlabelled m -> Unlabelled (step m).
Proof.
  intros Hgc [Hreq Hph]. destruct m as [ph l k el tr].
  unfold loader.Unlabelled, loader.step in *; cbn in *. destruct ph; cbn; try done.
  - subst tr. unfold labelFor. destruct (GroupCommit cfg); try done; cbn;
      autorewrite with trace; cbn; by repeat split.
  - destruct Hph as [-> Hw].
    assert (Forall (fun req => req_headers req = protocolHeaders cfg None ∪ Options cfg)
              (requests tr ++
               [build cfg None body (selectEndpoint cfg (pick env k))])) as Hreq'.
    { apply Forall_app. split; [done|]. by apply Forall_singleton. }
    destruct (succeeded _); cbn; autorewrite with trace; cbn;
      rewrite app_nil_r; (split; [done|]);
      try destruct (withinBudget _ _ _); done.
  - destruct Hph as [-> Hw]. destruct (ConfigRetry cfg); cbn; [|done].
    autorewrite with trace; cbn. by rewrite !app_nil_r.
Qed.

End Orchestrator.


Section Claims.
Import load loader.

Variable defaultLabelPrefix : string.
Variable cfg : Config.
Variable env : Env.
Variable body : list Byte.byte.

Local Abbreviation final := (Load defaultLabelPrefix cfg env body).

Lemma Load_Inv : Inv cfg final.
Proof. unfold Load. apply Inv_run. Qed.

Lemma Load_preserves (P : Machine -> Prop) :
  (forall m, P m -> P (loader.step defaultLabelPrefix cfg env body m)) ->
  P start -> P final.
Proof.
  intros Hstep H0.
  exact (run_preserves defaultLabelPrefix cfg env body P Hstep _ _ H0).
Qed.


(** C2: under a retry policy with base interval [b] and total time [T],
    the sleep before retry [k] is [min (b * 2^(k-1)) (T - elapsed)], elapsed
    being the time of everything before that sleep; hence the sleeps of one
    submission add up to at most [T]. *)
Theorem backoff_within_budget (p : Retry) :
  ConfigRetry cfg = Some p ->
  0 <= MaxTotalTimeMs p ->
  (forall i, 0 <= dur (outcome env i)) ->
  (forall pre d post,
     trace final = pre ++ EvSleep d :: post ->
     let k := S (length (sleeps pre)) in
     d = Z.min (BaseIntervalMs p * 2 ^ (Z.of_nat k - 1))
               (MaxTotalTimeMs p - timeOf pre)) /\
  sumZ (sleeps (trace final)) <= MaxTotalTimeMs p.
Proof.
  intros Hp HT Hdur.
  assert (Inv cfg final /\ Scheduled p (trace final) /\ Capped p final)
    as (_ & Hs & _ & Hcap).
  { apply (Load_preserves
             (fun m => Inv cfg m /\ Scheduled p (trace m) /\ Capped p m)).
    - intros m (Hi & Hs & Hc). split; [by apply Inv_step|].
      split; [by apply Scheduled_step | by apply Capped_step].
    - split; [apply Inv_start|]. split.
      + intros pre d post Heq. by destruct pre.
      + split; cbn; [done|]. by unfold sleeps, sumZ. }
  split; [|done]. intros pre d post Heq. by apply (Hs pre d post).
Qed.

(** C3: a submission ends, after at least one attempt; with a maximum of
    [N] retries it issues at most [N + 1] attempts, and without a retry
    policy it issues exactly one attempt and never sleeps. *)
Theorem attempts_bounded :
  terminal (phase final) = true /\
  (1 <= length (requests (trace final)))%nat /\
  (forall p, ConfigRetry cfg = Some p -> 0 <= MaxRetryTimes p ->
     Z.of_nat (length (requests (trace final))) <= MaxRetryTimes p + 1) /\
  (ConfigRetry cfg = None ->
     length (requests (trace final)) = 1%nat /\ sleeps (trace final) = []).
Proof.
  pose proof (Load_terminates defaultLabelPrefix cfg env body) as Hterm.
  pose proof Load_Inv as (Hreq & _ & Hph).
  split; [done|]. split; [destruct (phase final); try done; lia|].
  split.
  - intros p Hp HN.
    assert (Inv cfg final /\ Bounded cfg final) as [_ Hb].
    { apply (Load_preserves (fun m => Inv cfg m /\ Bounded cfg m)).
      - intros m [Hi Hb]. split; [by apply Inv_step|].
        apply Bounded_step; [|done..]. intros p' Hp'. congruence.
      - split; [apply Inv_start|]. unfold Bounded. by rewrite Hp. }
    unfold Bounded in Hb. rewrite Hp in Hb. rewrite Hreq.
    destruct (phase final); try done.
  - intros Hnone.
    assert (Inv cfg final /\ Bounded cfg final) as [_ Hb].
    { apply (Load_preserves (fun m => Inv cfg m /\ Bounded cfg m)).
      - intros m [Hi Hb]. split; [by apply Inv_step|].
        apply Bounded_step; [|done..]. intros p' Hp'. congruence.
      - split; [apply Inv_start|]. unfold Bounded. by rewrite Hnone. }
    unfold Bounded in Hb. rewrite Hnone in Hb. rewrite Hreq.
    destruct (phase final); try done.
Qed.

End Claims.

(** The scenarios of the design document: three retries without an effective
    time cap give four attempts and seven seconds of backoff; ten retries
    under a five-second cap stop after four attempts, the last sleep being
    cut to the remaining two seconds. *)
Example scenario_retries_exhausted :
  let m := loader.Load "doris" examples.threeRetries examples.refused [] in
  loader.sleeps (loader.trace m) = [1000; 2000; 4000] /\
  length (loader.requests (loader.trace m)) = 4%nat /\
  loader.phase m = loader.Exhausted "connection refused" 4 7000.
Proof. by vm_compute. Qed.

Example scenario_time_exhausted :
  let m := loader.Load "doris" examples.asyncConfig examples.refused [] in
  loader.sleeps (loader.trace m) = [1000; 2000; 2000] /\
  length (loader.requests (loader.trace m)) = 4%nat /\
  loader.phase m = loader.Exhausted "connection refused" 4 5000.
Proof. by vm_compute. Qed.

Example scenario_label_off :
  let m := loader.Load "doris" examples.threeRetries examples.refused [] in
  Forall (fun req => loader.req_headers req !! "label"
                     = Some "doris_1748938789999_e847dff4")
    (loader.requests (loader.trace m)).
Proof. vm_compute. repeat constructor. Qed.



Lemma backoff_within_budget_witness :
  load.ConfigRetry examples.asyncConfig = Some examples.policy /\
  0 <= load.MaxTotalTimeMs examples.policy /\
  (forall i, 0 <= loader.dur (loader.outcome examples.unreachable i)) /\
  loader.sumZ
    (loader.sleeps
       (loader.trace (loader.Load "doris" examples.asyncConfig examples.unreachable [])))
  <= 5000.
Proof.
  assert (H0 : 0 <= load.MaxTotalTimeMs examples.policy)
    by (vm_compute; discriminate).
  assert (Hd : forall i, 0 <= loader.dur (loader.outcome examples.unreachable i))
    by (intros i; vm_compute; discriminate).
  split; [reflexivity|]. split; [exact H0|]. split; [exact Hd|].
  exact (proj2 (backoff_within_budget "doris" examples.asyncConfig
                  examples.unreachable [] examples.policy eq_refl H0 Hd)).
Defined.

Lemma attempts_bounded_witness :
  load.ConfigRetry examples.asyncConfig = Some examples.policy /\
  0 <= load.MaxRetryTimes examples.policy /\
  load.ConfigRetry examples.singleShot = None /\
  Z.of_nat
    (length
       (loader.requests
          (loader.trace (loader.Load "doris" examples.asyncConfig examples.unreachable []))))
  <= 10 + 1 /\
  length
    (loader.requests
       (loader.trace (loader.Load "doris" examples.singleShot examples.unreachable [])))
  = 1%nat.
Proof.
  assert (H0 : 0 <= load.MaxRetryTimes examples.policy)
    by (vm_compute; discriminate).
  split; [reflexivity|]. split; [exact H0|]. split; [reflexivity|].
  split.
  - exact (proj1 (proj2 (proj2
      (attempts_bounded "doris" examples.asyncConfig examples.unreachable [])))
      examples.policy eq_refl H0).
  - exact (proj1 (proj2 (proj2 (proj2
      (attempts_bounded "doris" examples.singleShot examples.unreachable [])))
      eq_refl)).
Defined.

(** ** Replayable bodies *)

Section Replay.
Import replay.

Lemma attemptBodies_seek (s : SeekReader) (reads : list nat) (g : BodyFunc) :
  tracks s g ->
  (attemptBodies reads g).1 =
    replicate (length reads)
      (if closed s then Err "failed to seek to start: file already closed"
       else Ok (Shared, content s)) /\
  tracks s (attemptBodies reads g).2.
Proof.
  revert g. induction reads as [|n reads IH]; intros g Hg; [done|].
  destruct g as [[c o cl]|]; [|done]. destruct Hg as [Hc Hcl].
  cbn in Hc, Hcl. subst c cl.
  cbn [attemptBodies getBodyFunc]. unfold Seek0. cbn [closed content].
  destruct (closed s) eqn:Hclosed;
    match goal with
    | |- context [attemptBodies reads ?g] =>
        destruct (IH g) as [IH1 IH2]; [by cbn|];
        destruct (attemptBodies reads g) as [rest g2]
    end; cbn in *; by rewrite IH1.
Qed.

Lemma attemptBodies_buffer (b : list Byte.byte) (o : StreamReader) (reads : list nat) :
  attemptBodies reads (BufferBody b o) =
    (replicate (length reads) (Ok (Fresh (NewReader b), b)), BufferBody b o).
Proof.
  induction reads as [|n reads IH]; cbn; [done|]. by rewrite IH.
Qed.

Lemma replicate_same {A} (n : nat) (x : A) (k : nat) (y : A) :
  replicate n x !! k = Some y -> replicate n x !! 0%nat = Some y.
Proof.
  intros Hk. apply lookup_replicate in Hk as [-> Hlt].
  apply lookup_replicate. split; [done|lia].
Qed.


End Replay.



(** ** The flusher: group-commit mode *)

Section Parse.
Import load doris.

Lemma lowerAscii_upperOf (lo up : Ascii.ascii) :
  upperOf lo up -> lowerAscii up = lowerAscii lo.
Proof.
  intros [Hup Hlo]. unfold lowerAscii.
  rewrite bool_decide_eq_true_2 by done.
  rewrite bool_decide_eq_false_2 by lia.
  by rewrite <- Hlo, Ascii.ascii_nat_embedding.
Qed.

Lemma sameFold_lower (c1 c2 : Ascii.ascii) :
  sameFold c1 c2 -> lowerAscii c1 = lowerAscii c2.
Proof.
  intros [->|[Hu|Hu]]; [done| |]; apply lowerAscii_upperOf in Hu; done.
Qed.

Lemma sameLetters_ToLower (s1 s2 : string) :
  sameLetters s1 s2 -> ToLower s1 = ToLower s2.
Proof.
  revert s2. induction s1 as [|c1 s1 IH]; intros [|c2 s2]; cbn; try done.
  intros [Hc Hs]. f_equal; [by apply sameFold_lower | by apply IH].
Qed.

(** C9: [parseGroupCommitMode] is total and ignores case: it returns
    [SYNC] when the lower-cased input is sync, [ASYNC] when it is async,
    [OFF] when it is off or empty, and [OFF] with one warning for every
    other input; inputs that differ only in case give the same mode. *)
Theorem parseGroupCommitMode_total (mode : string) :
  (ToLower mode = "sync" -> parseGroupCommitMode mode = (SYNC, [])) /\
  (ToLower mode = "async" -> parseGroupCommitMode mode = (ASYNC, [])) /\
  (ToLower mode = "off" \/ ToLower mode = "" ->
     parseGroupCommitMode mode = (OFF, [])) /\
  (ToLower mode <> "sync" -> ToLower mode <> "async" ->
   ToLower mode <> "off" -> ToLower mode <> "" ->
     parseGroupCommitMode mode =
       (OFF, [Warningf ("Unknown group commit mode: " +:+ mode +:+ ", using 'off'")])) /\
  (forall mode', sameLetters mode mode' ->
     (parseGroupCommitMode mode').1 = (parseGroupCommitMode mode).1).
Proof.
  unfold parseGroupCommitMode. repeat split.
  - intros ->. done.
  - intros ->. done.
  - intros [-> | ->]; done.
  - intros H1 H2 H3 H4. repeat case_decide; try done. tauto.
  - intros mode' Hs. rewrite <- (sameLetters_ToLower _ _ Hs).
    repeat case_decide; done.
Qed.

End Parse.

Lemma parseGroupCommitMode_total_witness :
  doris.ToLower "SYNC" = "sync" /\
  doris.parseGroupCommitMode "SYNC" = (load.SYNC, []).
Proof.
  split; [reflexivity|].
  exact (proj1 (parseGroupCommitMode_total "SYNC") eq_refl).
Defined.


(** ** The flusher: validation, flushing, statistics *)

Section FlusherFacts.
Import load doris.
Context `{Externals}.

Lemma GetUsernamePassword_missing (a : Authentication) :
  credentialsMissing a -> exists e, GetUsernamePassword a = Err e.
Proof.
  unfold credentialsMissing, GetUsernamePassword.
  destruct (PlainText a) as [p|]; [|by eexists].
  intros [Hu|Hp]; repeat case_decide; try done; by eexists.
Qed.

Lemma clientCreations_app (e1 e2 : list Event) :
  clientCreations (e1 ++ e2) = clientCreations e1 ++ clientCreations e2.
Proof. apply omap_app. Qed.

Lemma loadCalls_app (e1 e2 : list Event) :
  loadCalls (e1 ++ e2) = loadCalls e1 ++ loadCalls e2.
Proof. apply omap_app. Qed.

Lemma clientCreations_logged (ls : list Log) : clientCreations (Logged <$> ls) = [].
Proof. unfold clientCreations. induction ls; cbn; auto. Qed.

Lemma loadCalls_logged (ls : list Log) : loadCalls (Logged <$> ls) = [].
Proof. unfold loadCalls. induction ls; cbn; auto. Qed.

(** The configuration [initDorisClient] hands to the SDK: the mode parsed
    from the flusher's setting, a fixed label prefix and no label. *)
Lemma initDorisClient_config (f f' : FlusherDoris) (evs : list Event) :
  initDorisClient f = (None, f', evs) ->
  exists cfg client,
    clientCreations evs = [cfg] /\
    NewLoadClient cfg = Ok client /\ dorisClient f' = Some client /\
    GroupCommit cfg = (parseGroupCommitMode (FlusherGroupCommit f)).1 /\
    LabelPrefix cfg = "LoongCollector_doris_flusher" /\ Label cfg = "".
Proof.
  unfold initDorisClient.
  destruct (GetUsernamePassword _) as [[u p]|e]; [|done].
  destruct (parseGroupCommitMode _) as [mode logs]; cbn.
  match goal with
  | |- context [NewLoadClient ?c] =>
      destruct (NewLoadClient c) as [client|e] eqn:Hnew; [|done];
      intros [= <- <-]; exists c, client
  end.
  rewrite clientCreations_app, clientCreations_logged. done.
Qed.

(** C6: [Validate] returns an error exactly when the addresses are nil or
    empty or the table is empty; [Init] hands that error to its caller at
    once; and when the plaintext username or password is missing [Init]
    returns an error without having created a client or loaded anything. *)
Theorem config_validation_fails_fast (f : FlusherDoris) :
  ((Validate f).1 <> None <->
     Addresses f = None \/ Addresses f = Some [] \/ FlusherTable f = "") /\
  (forall err, (Validate f).1 = Some err ->
     let '(e, f', evs) := Init f in
     e = Some err /\ f' = f /\ clientCreations evs = [] /\ loadCalls evs = []) /\
  (credentialsMissing (FlusherAuthentication f) ->
     let '(e, f', evs) := Init f in
     e <> None /\ dorisClient f' = dorisClient f /\
     clientCreations evs = [] /\ loadCalls evs = []).
Proof.
  split; [|split].
  - unfold Validate. destruct (Addresses f) as [[|a l]|]; cbn.
    + split; [auto | done].
    + case_decide; cbn; split; try done.
      * auto.
      * intros [|[|]]; done.
    + split; [auto | done].
  - intros err Hv. unfold Init. destruct (Validate f) as [[e|] logs]; [|done].
    cbn in Hv. injection Hv as ->.
    rewrite clientCreations_app, loadCalls_app,
      clientCreations_logged, loadCalls_logged. done.
  - intros Hmiss. unfold Init. destruct (Validate f) as [[e|] logs].
    { rewrite clientCreations_app, loadCalls_app,
        clientCreations_logged, loadCalls_logged. done. }
    set (f1 := if decide (Encoding (Convert f) = "") then _ else f).
    set (f2 := if decide (Protocol (Convert f1) = "") then _ else f1).
    assert (Hauth : FlusherAuthentication f2 = FlusherAuthentication f).
    { subst f2 f1. by repeat case_decide. }
    assert (Hcl : dorisClient f2 = dorisClient f).
    { subst f2 f1. by repeat case_decide. }
    unfold getConverter.
    destruct (NewConverter _ _ _ _) as [conv|e].
    + unfold initDorisClient. cbn [FlusherAuthentication set_converter].
      rewrite Hauth.
      destruct (GetUsernamePassword_missing _ Hmiss) as [e ->].
      rewrite !clientCreations_app, !loadCalls_app,
        clientCreations_logged, loadCalls_logged. done.
    + rewrite !clientCreations_app, !loadCalls_app,
        clientCreations_logged, loadCalls_logged. done.
Qed.


(** ** Flush *)

Lemma loadCalls_logged_cons (l : Log) (evs : list Event) :
  loadCalls (Logged l :: evs) = loadCalls evs.
Proof. done. Qed.

Lemma loadCalls_call_cons (b : list Byte.byte) (r : result LoadResponse)
    (evs : list Event) :
  loadCalls (LoadCall b r :: evs) = (b, r) :: loadCalls evs.
Proof. done. Qed.

Lemma payloads_cons (conv : Converter) (g : LogGroup) (gs : list LogGroup) :
  omap (payload conv) (g :: gs) =
    match payload conv g with
    | Some b => b :: omap (payload conv) gs
    | None => omap (payload conv) gs
    end.
Proof. done. Qed.

(** A skipped group only adds log lines. *)
Lemma flushGroups_skip (c : DorisLoadClient) (conv : Converter) (g : LogGroup)
    (gs : list LogGroup) (st : statistics) (w : World) :
  payload conv g = None ->
  exists l1 l2,
    flushGroups c conv (g :: gs) st w =
      let '(e, st', w', evs) := flushGroups c conv gs st w in
      (e, st', w', Logged l1 :: Logged l2 :: evs).
Proof.
  unfold payload. cbn [flushGroups].
  destruct (ToByteStream conv g) as [logs|err].
  - case_bool_decide; [|done]. intros _.
    eexists _, _. reflexivity.
  - intros _. eexists _, _. reflexivity.
Qed.

(** A group with a payload is sent; what follows depends on the answer. *)
Lemma flushGroups_send (c : DorisLoadClient) (conv : Converter) (g : LogGroup)
    (gs : list LogGroup) (st : statistics) (w : World) (buf : list Byte.byte) :
  payload conv g = Some buf ->
  exists l1 l2 l3,
    flushGroups c conv (g :: gs) st w =
      match ClientLoad c buf w with
      | (Ok response, w1) =>
          if decide (Status response = SUCCESS) then
            let '(e, st', w', evs) :=
              flushGroups c conv gs
                (updateStatistics st (uint64 (LoadBytes (Resp response)))
                   (uint64 (NumberLoadedRows (Resp response)))) w1 in
            (e, st', w',
             Logged l1 :: Logged l2 :: LoadCall buf (Ok response) ::
             Logged (Info "Doris load success") :: evs)
          else
            (Some ("doris load failed: " +:+ ErrorMessage response), st, w1,
             [Logged l1; Logged l2; LoadCall buf (Ok response); Logged l3])
      | (Err err, w1) =>
          (Some ("failed to load data to doris: " +:+ err), st, w1,
           [Logged l1; Logged l2; LoadCall buf (Err err);
            Logged (Warning "FLUSHER_FLUSH_ALARM" "flush doris load fail, error")])
      end.
Proof.
  unfold payload. cbn [flushGroups].
  destruct (ToByteStream conv g) as [logs|err]; [|done].
  case_bool_decide; [done|]. intros [= <-].
  eexists _, _, _.
  destruct (ClientLoad c (combine logs) w) as [[response|err] w1]; [|done].
  case_decide; reflexivity.
Qed.

Lemma flushGroups_outcome (c : DorisLoadClient) (conv : Converter)
    (groups : list LogGroup) (st : statistics) (w : World) :
  let '(e, st', w', evs) := flushGroups c conv groups st w in
  let calls := loadCalls evs in
  calls.*1 `prefix_of` omap (payload conv) groups /\
  st' = runOps (omap statsOp calls) st /\
  (e = None ->
     calls.*1 = omap (payload conv) groups /\ Forall callOk calls) /\
  (e <> None ->
     exists pre last, calls = pre ++ [last] /\ Forall callOk pre /\
                      loadedOk last.2 = false).
Proof.
  revert st w. induction groups as [|g groups IH]; intros st w.
  { cbn. repeat split; try done. }
  rewrite payloads_cons. destruct (payload conv g) as [buf|] eqn:Hp.
  2:{ destruct (flushGroups_skip c conv g groups st w Hp) as (l1 & l2 & ->).
      specialize (IH st w).
      destruct (flushGroups c conv groups st w) as [[[e st'] w'] evs].
      by rewrite !loadCalls_logged_cons. }
  destruct (flushGroups_send c conv g groups st w buf Hp) as (l1 & l2 & l3 & ->).
  destruct (ClientLoad c buf w) as [[response|err] w1].
  2:{ cbn. repeat split; try done.
      - apply prefix_cons, prefix_nil.
      - intros _. by exists [], (buf, Err err). }
  case_decide as Hst.
  2:{ cbn. unfold statsOp; cbn. rewrite decide_False by done. repeat split; try done.
      - apply prefix_cons, prefix_nil.
      - intros _. exists [], (buf, Ok response). cbn.
        by rewrite bool_decide_eq_false_2. }
  set (st1 := updateStatistics _ _ _).
  specialize (IH st1 w1).
  destruct (flushGroups c conv groups st1 w1) as [[[e st'] w'] evs].
  rewrite !loadCalls_logged_cons, loadCalls_call_cons, loadCalls_logged_cons.
  cbn zeta in *. destruct IH as (Hpre & Hst' & Hnone & Hsome).
  assert (Hok : callOk (buf, Ok response)).
  { unfold callOk; cbn. by rewrite bool_decide_eq_true_2. }
  assert (Hop : statsOp (buf, Ok response) =
                Some (Loaded (uint64 (LoadBytes (Resp response)))
                        (uint64 (NumberLoadedRows (Resp response))))).
  { unfold statsOp; cbn. by rewrite decide_True. }
  repeat split.
  - rewrite fmap_cons. by apply prefix_cons.
  - cbn [omap list_omap]. rewrite Hop. by cbn.
  - rewrite fmap_cons. f_equal. by apply Hnone.
  - constructor; [done | by apply Hnone].
  - intros He. destruct (Hsome He) as (pre & last & -> & Hpre' & Hlast).
    exists ((buf, Ok response) :: pre), last. repeat split; try done.
    by constructor.
Qed.

(** C10: without a client [Flush] returns an error and sends nothing.
    With one, the buffers sent are, in order, a prefix of the buffers of the
    groups that are not skipped (skipped: serialization failed or nothing to
    send); [Flush] returns nil only if every such group was sent and
    answered with SUCCESS; it returns an error only if the last buffer sent
    met a transport error or a response that is not SUCCESS, everything
    before it having succeeded and nothing after it being sent. *)
Theorem Flush_outcome (f : FlusherDoris) (groups : list LogGroup) (w : World) :
  (dorisClient f = None ->
     Flush f groups w =
       (Returned (Some "doris client not initialized"), f, w, [])) /\
  (forall c conv, dorisClient f = Some c -> converter f = Some conv ->
     let '(out, f', w', evs) := Flush f groups w in
     let calls := loadCalls evs in
     exists e, out = Returned e /\
       calls.*1 `prefix_of` omap (payload conv) groups /\
       (e = None ->
          calls.*1 = omap (payload conv) groups /\ Forall callOk calls) /\
       (e <> None ->
          exists pre last, calls = pre ++ [last] /\ Forall callOk pre /\
                           loadedOk last.2 = false)).
Proof.
  split.
  - intros Hc. unfold Flush. by rewrite Hc.
  - intros c conv Hc Hconv. unfold Flush. rewrite Hc, Hconv.
    pose proof (flushGroups_outcome c conv groups (stats f) w) as Hout.
    destruct (flushGroups c conv groups (stats f) w) as [[[e st'] w'] evs].
    cbn in *. exists e. destruct Hout as (? & ? & ? & ?). done.
Qed.

(** ** Statistics *)

Lemma add64_uint64 (a b : Z) : add64 a (uint64 b) = (a + b) `mod` two64.
Proof. unfold add64, uint64. by rewrite Zplus_mod_idemp_r. Qed.

Lemma applyOp_monotone (s : statistics) (o : Op) :
  inRange s -> fits s o ->
  inRange (applyOp s o) /\
  totalBytes s <= totalBytes (applyOp s o) /\
  totalRows s <= totalRows (applyOp s o).
Proof.
  intros (Hb & Hr & Hlb & Hlr) Hfit. destruct o as [b r|i t]; cbn in *.
  - destruct Hfit as (Hb0 & Hr0 & Hbf & Hrf). unfold inRange; cbn. unfold add64.
    rewrite (Z.mod_small (totalBytes s + b)), (Z.mod_small (totalRows s + r)) by lia.
    assert (0 < two64) by done.
    pose proof (Z.mod_pos_bound (lastBytes s + b) two64).
    pose proof (Z.mod_pos_bound (lastRows s + r) two64). lia.
  - unfold inRange; cbn. assert (0 < two64) by done. lia.
Qed.

Lemma runOps_monotone (ops : list Op) (s : statistics) :
  inRange s -> fitsAll ops s ->
  totalBytes s <= totalBytes (runOps ops s) /\
  totalRows s <= totalRows (runOps ops s).
Proof.
  revert s. induction ops as [|o ops IH]; intros s Hs Hfit; [cbn; lia|].
  destruct Hfit as [Ho Hfit].
  destruct (applyOp_monotone s o Hs Ho) as (Hs' & Hb & Hr).
  destruct (IH _ Hs' Hfit) as [IHb IHr].
  change (runOps (o :: ops) s) with (runOps ops (applyOp s o)). lia.
Qed.

(** C7, as the code has it: a successful load adds the loaded bytes and rows
    of the response to the lifetime and to the windowed counters, modulo
    [2^64]; a report sets the windowed counters to zero and leaves the
    lifetime counters as they are; the lifetime counters never decrease over
    a sequence of operations in which no lifetime counter passes
    [2^64 - 1]. *)
Theorem statistics_accounting (s : statistics) :
  (forall bytes rows,
     let s' := updateStatistics s bytes rows in
     totalBytes s' = (totalBytes s + bytes) `mod` 2 ^ 64 /\
     totalRows s' = (totalRows s + rows) `mod` 2 ^ 64 /\
     lastBytes s' = (lastBytes s + bytes) `mod` 2 ^ 64 /\
     lastRows s' = (lastRows s + rows) `mod` 2 ^ 64) /\
  (forall (f : FlusherDoris) c conv groups w,
     dorisClient f = Some c -> converter f = Some conv -> stats f = s ->
     let '(out, f', w', evs) := Flush f groups w in
     stats f' = runOps (omap statsOp (loadCalls evs)) s) /\
  (forall interval now,
     let s' := (logProgress s interval now).1 in
     lastBytes s' = 0 /\ lastRows s' = 0 /\
     totalBytes s' = totalBytes s /\ totalRows s' = totalRows s) /\
  (forall ops,
     inRange s -> fitsAll ops s ->
     totalBytes s <= totalBytes (runOps ops s) /\
     totalRows s <= totalRows (runOps ops s)).
Proof.
  repeat split.
  - intros f c conv groups w Hc Hconv <-. unfold Flush. rewrite Hc, Hconv.
    pose proof (flushGroups_outcome c conv groups (stats f) w) as Hout.
    destruct (flushGroups c conv groups (stats f) w) as [[[e st'] w'] evs].
    by destruct Hout as (_ & ? & _).
  - by apply runOps_monotone.
  - by apply runOps_monotone.
Qed.

End FlusherFacts.

(** A load answered with a negative byte count: the conversion to [uint64]
    fills the lifetime counter, and the next byte wraps it around. *)
Example Flush_negative_bytes :
  let '(_, f1, _, _) :=
    @doris.Flush examples.scripted examples.ready [[examples.ab]]
      [Ok (examples.loaded (-1) 1)] in
  let '(_, f2, _, _) :=
    @doris.Flush examples.scripted f1 [[examples.ab]]
      [Ok (examples.loaded 1 1)] in
  doris.totalBytes (doris.stats f1) = 2 ^ 64 - 1 /\
  doris.totalBytes (doris.stats f2) = 0.
Proof. by vm_compute. Qed.

(** C7, counterexample: after loads of [2^64 - 1] bytes in total, one more
    byte takes the lifetime byte counter back to zero. *)
Lemma lifetime_counter_wraps :
  let s := doris.runOps [doris.Loaded (2 ^ 64 - 1) 0] (doris.newStatistics 0) in
  doris.totalBytes (doris.applyOp s (doris.Loaded 1 0)) < doris.totalBytes s.
Proof. by vm_compute. Qed.

Lemma config_validation_fails_fast_witness :
  doris.credentialsMissing (doris.FlusherAuthentication examples.fresh) /\
  let '(e, f', evs) := doris.Init examples.fresh in
  e <> None /\ doris.dorisClient f' = doris.dorisClient examples.fresh /\
  doris.clientCreations evs = [] /\ doris.loadCalls evs = [].
Proof.
  split; [left; reflexivity|].
  exact (proj2 (proj2 (@config_validation_fails_fast examples.scripted examples.fresh))
           (or_introl eq_refl)).
Defined.

Lemma Flush_outcome_witness :
  doris.dorisClient examples.ready = Some examples.singleShot /\
  doris.converter examples.ready = Some tt /\
  let '(out, f', w', evs) :=
    @doris.Flush examples.scripted examples.ready examples.groups
      [Ok (examples.loaded 3 1); Ok examples.rejected] in
  let calls := doris.loadCalls evs in
  exists e, out = doris.Returned e /\
    calls.*1 `prefix_of` omap (@doris.payload examples.scripted tt) examples.groups /\
    (e = None ->
       calls.*1 = omap (@doris.payload examples.scripted tt) examples.groups /\
       Forall doris.callOk calls) /\
    (e <> None ->
       exists pre last, calls = pre ++ [last] /\ Forall doris.callOk pre /\
                        doris.loadedOk last.2 = false).
Proof.
  split; [reflexivity|]. split; [reflexivity|].
  exact (proj2 (@Flush_outcome examples.scripted examples.ready examples.groups
                  [Ok (examples.loaded 3 1); Ok examples.rejected])
           examples.singleShot tt eq_refl eq_refl).
Defined.

Lemma statistics_accounting_witness :
  doris.inRange (doris.newStatistics 0) /\
  doris.fitsAll [doris.Loaded 197 2; doris.Report 10 5; doris.Loaded 100 1]
    (doris.newStatistics 0) /\
  doris.totalBytes (doris.newStatistics 0) <=
  doris.totalBytes
    (doris.runOps [doris.Loaded 197 2; doris.Report 10 5; doris.Loaded 100 1]
       (doris.newStatistics 0)).
Proof.
  assert (Hr : doris.inRange (doris.newStatistics 0))
    by (vm_compute; repeat split; discriminate).
  assert (Hf : doris.fitsAll
                 [doris.Loaded 197 2; doris.Report 10 5; doris.Loaded 100 1]
                 (doris.newStatistics 0))
    by (vm_compute; repeat split; discriminate).
  split; [exact Hr|]. split; [exact Hf|].
  exact (proj1 (proj2 (proj2 (proj2
    (@statistics_accounting examples.scripted (doris.newStatistics 0))))
    [doris.Loaded 197 2; doris.Report 10 5; doris.Loaded 100 1] Hr Hf)).
Defined.

(** * Further properties of the code

    ** The events of the flusher *)

Lemma tickerStarts_app (e1 e2 : list doris.Event) :
  lifecycle.tickerStarts (e1 ++ e2) = lifecycle.tickerStarts e1 ++ lifecycle.tickerStarts e2.
Proof. apply omap_app. Qed.

Lemma tickerStarts_logged (ls : list doris.Log) : lifecycle.tickerStarts (doris.Logged <$> ls) = [].
Proof. unfold lifecycle.tickerStarts. induction ls; cbn; auto. Qed.

Lemma clientCreations_cons (e : doris.Event) (evs : list doris.Event) :
  doris.clientCreations (e :: evs) =
    match e with doris.ClientCreation c => [c] | _ => [] end ++ doris.clientCreations evs.
Proof. by destruct e. Qed.

Lemma loadCalls_cons (e : doris.Event) (evs : list doris.Event) :
  doris.loadCalls (e :: evs) =
    match e with doris.LoadCall b r => [(b, r)] | _ => [] end ++ doris.loadCalls evs.
Proof. by destruct e. Qed.

Lemma tickerStarts_cons (e : doris.Event) (evs : list doris.Event) :
  lifecycle.tickerStarts (e :: evs) =
    match e with doris.TickerStarted s => [s] | _ => [] end ++ lifecycle.tickerStarts evs.
Proof. by destruct e. Qed.

Ltac events :=
  repeat first
    [ rewrite clientCreations_app | rewrite loadCalls_app
    | rewrite tickerStarts_app | rewrite clientCreations_logged
    | rewrite loadCalls_logged | rewrite tickerStarts_logged
    | rewrite clientCreations_cons | rewrite loadCalls_cons
    | rewrite tickerStarts_cons ];
  cbn.


Section InitFacts.
Import load doris lifecycle.
Context `{Externals}.

(** The flusher as [Init] has it when it asks for the converter. *)
Lemma Init_defaults (f : FlusherDoris) :
  let f1 :=
    if decide (Encoding (Convert f) = "") then
      set_Convert {| TagFieldsRename := TagFieldsRename (Convert f);
                     ProtocolFieldsRename := ProtocolFieldsRename (Convert f);
                     Protocol := Protocol (Convert f);
                     Encoding := EncodingJSON |} f
    else f in
  let f2 :=
    if decide (Protocol (Convert f1) = "") then
      set_Convert {| TagFieldsRename := TagFieldsRename (Convert f1);
                     ProtocolFieldsRename := ProtocolFieldsRename (Convert f1);
                     Protocol := ProtocolCustomSingle;
                     Encoding := Encoding (Convert f1) |} f1
    else f1 in
  f2 = set_Convert {| TagFieldsRename := TagFieldsRename (Convert f);
                      ProtocolFieldsRename := ProtocolFieldsRename (Convert f);
                      Protocol := effectiveProtocol f;
                      Encoding := effectiveEncoding f |} f.
Proof.
  unfold effectiveProtocol, effectiveEncoding.
  destruct f as [a d au t lp li gc dc cv [tr pr p e] st pt]; cbn.
  repeat case_decide; cbn in *; subst; try done.
Qed.

Lemma initDorisClient_unfold (f : FlusherDoris) :
  initDorisClient f =
    match GetUsernamePassword (FlusherAuthentication f) with
    | Err err =>
        (Some ("failed to get authentication credentials: " +:+ err), f, [])
    | Ok (username, password) =>
        let config := sdkConfig f username password in
        let logs := (parseGroupCommitMode (FlusherGroupCommit f)).2 in
        match NewLoadClient config with
        | Err err =>
            (Some ("failed to create doris client: " +:+ err), f,
             (Logged <$> logs) ++ [ClientCreation config])
        | Ok client =>
            (None, set_dorisClient (Some client) f,
             (Logged <$> logs) ++
             [ClientCreation config;
              Logged (Info "Doris client initialized successfully")])
        end
    end.
Proof.
  unfold initDorisClient, sdkConfig.
  destruct (GetUsernamePassword _) as [[u p]|e]; [|done].
  by destruct (parseGroupCommitMode _) as [mode logs].
Qed.


(** [Init], stage by stage. *)
Lemma Init_unfold (f : FlusherDoris) :
  Init f =
    match Validate f with
    | (Some err, logs) =>
        (Some err, f,
         (Logged <$> logs) ++
         [Logged (Warning "FLUSHER_INIT_ALARM" "init doris flusher fail, error")])
    | (None, logs) =>
        let f2 :=
          set_Convert {| TagFieldsRename := TagFieldsRename (Convert f);
                         ProtocolFieldsRename := ProtocolFieldsRename (Convert f);
                         Protocol := effectiveProtocol f;
                         Encoding := effectiveEncoding f |} f in
        let dbg := [Logged (Debug "[ilogtail data convert config] Protocol")] in
        match NewConverter (effectiveProtocol f) (effectiveEncoding f)
                (TagFieldsRename (Convert f)) (ProtocolFieldsRename (Convert f)) with
        | Err err =>
            (Some err, f2,
             (Logged <$> logs) ++ dbg ++
             [Logged (Warning "FLUSHER_INIT_ALARM"
                        "init doris flusher converter fail, error")])
        | Ok conv =>
            let f3 := set_converter (Some conv) f2 in
            let alarm :=
              [Logged (Warning "FLUSHER_INIT_ALARM" "init doris client fail, error")] in
            match GetUsernamePassword (FlusherAuthentication f) with
            | Err err =>
                (Some ("failed to get authentication credentials: " +:+ err), f3,
                 (Logged <$> logs) ++ dbg ++ [] ++ alarm)
            | Ok (u, p) =>
                let plogs := Logged <$> (parseGroupCommitMode (FlusherGroupCommit f)).2 in
                match NewLoadClient (sdkConfig f u p) with
                | Err err =>
                    (Some ("failed to create doris client: " +:+ err), f3,
                     (Logged <$> logs) ++ dbg ++
                     (plogs ++ [ClientCreation (sdkConfig f u p)]) ++ alarm)
                | Ok client =>
                    let f4 := set_dorisClient (Some client) f3 in
                    let evs :=
                      plogs ++
                      [ClientCreation (sdkConfig f u p);
                       Logged (Info "Doris client initialized successfully")] in
                    if bool_decide (LogProgressInterval f > 0) then
                      (None, set_progressTicker (Some (LogProgressInterval f)) f4,
                       (Logged <$> logs) ++ dbg ++ evs ++
                       [TickerStarted (LogProgressInterval f)])
                    else (None, f4, (Logged <$> logs) ++ dbg ++ evs)
                end
            end
        end
    end.
Proof.
  unfold Init. destruct (Validate f) as [[e|] logs]; [done|].
  pose proof (Init_defaults f) as Hd. cbv zeta in Hd |- *. rewrite Hd. clear Hd.
  unfold getConverter. cbn [Convert set_Convert Protocol Encoding
    TagFieldsRename ProtocolFieldsRename].
  destruct (NewConverter _ _ _ _) as [conv|err]; [|done].
  rewrite initDorisClient_unfold. cbn [FlusherAuthentication set_converter set_Convert].
  destruct (GetUsernamePassword _) as [[u p]|err]; [|done].
  cbv zeta.
  change (sdkConfig (set_converter (Some conv) _) u p) with (sdkConfig f u p).
  cbn [FlusherGroupCommit set_converter set_Convert].
  destruct (NewLoadClient _) as [client|err]; [|done].
  cbn [LogProgressInterval set_dorisClient set_converter set_Convert].
  case_bool_decide; done.
Qed.


(** ** Init *)

(** X1: when the progress interval, in nanoseconds, fits [int64] (so that
    the ticker can be made), [Init] returns no error exactly when the
    configuration passes [Validate], the converter can be created with the
    protocol and encoding in force (the defaults where the fields are
    empty), the plain-text credentials are complete, and the SDK creates a
    client for the configuration built from the flusher. *)
Theorem Init_succeeds_iff (f : FlusherDoris) :
  LogProgressInterval f * util.Second < 2 ^ 63 ->
  (Init f).1.1 = None <->
  (Validate f).1 = None /\
  exists conv u p client,
    NewConverter (effectiveProtocol f) (effectiveEncoding f)
      (TagFieldsRename (Convert f)) (ProtocolFieldsRename (Convert f)) = Ok conv /\
    GetUsernamePassword (FlusherAuthentication f) = Ok (u, p) /\
    NewLoadClient (sdkConfig f u p) = Ok client.
Proof.
  intros _. rewrite Init_unfold. destruct (Validate f) as [[e|] logs]; cbn.
  { split; [done|]. by intros [? _]. }
  destruct (NewConverter _ _ _ _) as [conv|err]; cbn.
  2:{ split; [done|]. by intros [_ (? & ? & ? & ? & ? & _)]. }
  destruct (GetUsernamePassword _) as [[u p]|err]; cbn.
  2:{ split; [done|]. by intros [_ (? & ? & ? & ? & _ & ? & _)]. }
  destruct (NewLoadClient _) as [client|err] eqn:Hnew; cbn.
  - split; [|by case_bool_decide]. intros _. split; [done|].
    by exists conv, u, p, client.
  - split; [done|]. intros [_ (? & u' & p' & ? & _ & [= <- <-] & Hc)].
    rewrite Hnew in Hc. done.
Qed.

(** X2: after a successful [Init] (the progress interval, in nanoseconds,
    fitting [int64]) the flusher holds the client the SDK returned and a
    converter, [IsReady] answers true, the empty protocol and encoding
    fields have their defaults, exactly one client was created (for the
    configuration built from the flusher and its credentials), nothing was
    loaded, and the progress ticker was started exactly when
    [LogProgressInterval] is positive. *)
Theorem Init_success_state (f f' : FlusherDoris) (evs : list Event) :
  LogProgressInterval f * util.Second < 2 ^ 63 ->
  Init f = (None, f', evs) ->
  exists conv u p client,
    GetUsernamePassword (FlusherAuthentication f) = Ok (u, p) /\
    NewLoadClient (sdkConfig f u p) = Ok client /\
    dorisClient f' = Some client /\ converter f' = Some conv /\
    IsReady f' = true /\
    Protocol (Convert f') = effectiveProtocol f /\
    Encoding (Convert f') = effectiveEncoding f /\
    clientCreations evs = [sdkConfig f u p] /\
    loadCalls evs = [] /\
    if bool_decide (LogProgressInterval f > 0) then
      progressTicker f' = Some (LogProgressInterval f) /\
      tickerStarts evs = [LogProgressInterval f]
    else progressTicker f' = progressTicker f /\ tickerStarts evs = [].
Proof.
  intros _.
  rewrite Init_unfold. destruct (Validate f) as [[e|] logs]; [done|]. cbv zeta.
  destruct (NewConverter _ _ _ _) as [conv|err]; [|done].
  destruct (GetUsernamePassword _) as [[u p]|err]; [|done].
  destruct (NewLoadClient _) as [client|err] eqn:Hnew; [|done].
  case_bool_decide; intros [= <- <-]; exists conv, u, p, client;
    events; by repeat split.
Qed.

(** X3: whatever [Init] returns, it leaves the user's settings (addresses,
    database, table, credentials, load properties, interval, group commit,
    field renames) and the statistics as they were, loads nothing, and
    creates at most one client. *)
Theorem Init_frame (f : FlusherDoris) :
  let '(e, f', evs) := Init f in
  Addresses f' = Addresses f /\ FlusherDatabase f' = FlusherDatabase f /\
  FlusherAuthentication f' = FlusherAuthentication f /\
  FlusherTable f' = FlusherTable f /\ LoadProperties f' = LoadProperties f /\
  LogProgressInterval f' = LogProgressInterval f /\
  FlusherGroupCommit f' = FlusherGroupCommit f /\
  TagFieldsRename (Convert f') = TagFieldsRename (Convert f) /\
  ProtocolFieldsRename (Convert f') = ProtocolFieldsRename (Convert f) /\
  stats f' = stats f /\
  loadCalls evs = [] /\ (length (clientCreations evs) <= 1)%nat.
Proof.
  rewrite Init_unfold. destruct (Validate f) as [[e|] logs]; cbv zeta.
  { events. repeat split; lia. }
  destruct (NewConverter _ _ _ _) as [conv|err].
  2:{ events. repeat split; lia. }
  destruct (GetUsernamePassword _) as [[u p]|err].
  2:{ events. repeat split; lia. }
  destruct (NewLoadClient _) as [client|err].
  2:{ events. repeat split; lia. }
  case_bool_decide; events; repeat split; lia.
Qed.

(** X4: on a flusher without a client, and with a progress interval that,
    in nanoseconds, fits [int64] (so that the ticker can be made and [Init]
    returns), [IsReady] answers true after [Init] exactly when [Init]
    returned no error; after a failed [Init] there is no client, and no
    progress ticker was started. *)
Theorem Init_ready_iff (f : FlusherDoris) :
  dorisClient f = None ->
  LogProgressInterval f * util.Second < 2 ^ 63 ->
  let '(e, f', evs) := Init f in
  (IsReady f' = true <-> e = None) /\
  (e <> None ->
     dorisClient f' = None /\ progressTicker f' = progressTicker f /\
     tickerStarts evs = []).
Proof.
  intros Hc _. rewrite Init_unfold. unfold IsReady.
  destruct (Validate f) as [[e|] logs]; cbv zeta.
  { events. rewrite Hc. by repeat split. }
  destruct (NewConverter _ _ _ _) as [conv|err].
  2:{ events. rewrite Hc. by repeat split. }
  destruct (GetUsernamePassword _) as [[u p]|err].
  2:{ events. rewrite Hc. by repeat split. }
  destruct (NewLoadClient _) as [client|err].
  2:{ events. rewrite Hc. by repeat split. }
  case_bool_decide; events; by repeat split.
Qed.

(** X5: once validation has passed, a failing converter makes [Init]
    return that error before any client is created, and a failing client
    creation makes it return the error wrapped in [failed to create doris
    client], with the converter already stored, no client, and no ticker. *)
Theorem Init_error_stage (f : FlusherDoris) :
  (Validate f).1 = None ->
  (forall err,
     NewConverter (effectiveProtocol f) (effectiveEncoding f)
       (TagFieldsRename (Convert f)) (ProtocolFieldsRename (Convert f)) = Err err ->
     let '(e, f', evs) := Init f in
     e = Some err /\ converter f' = converter f /\
     dorisClient f' = dorisClient f /\ clientCreations evs = []) /\
  (forall conv u p err,
     NewConverter (effectiveProtocol f) (effectiveEncoding f)
       (TagFieldsRename (Convert f)) (ProtocolFieldsRename (Convert f)) = Ok conv ->
     GetUsernamePassword (FlusherAuthentication f) = Ok (u, p) ->
     NewLoadClient (sdkConfig f u p) = Err err ->
     let '(e, f', evs) := Init f in
     e = Some ("failed to create doris client: " +:+ err) /\
     converter f' = Some conv /\ dorisClient f' = dorisClient f /\
     progressTicker f' = progressTicker f /\
     clientCreations evs = [sdkConfig f u p]).
Proof.
  intros Hv. rewrite Init_unfold.
  destruct (Validate f) as [[e|] logs]; [done|]. cbv zeta. split.
  - intros err ->. events. by repeat split.
  - intros conv u p err -> -> ->. events. by repeat split.
Qed.

End InitFacts.

Section InitScenarios.
Import load doris lifecycle.

Lemma Init_succeeds_iff_witness :
  let f := scenarios.configured in
  LogProgressInterval f * util.Second < 2 ^ 63 /\
  ((@Init examples.scripted f).1.1 = None <->
   (Validate f).1 = None /\
   exists conv u p client,
     @NewConverter examples.scripted (effectiveProtocol f) (effectiveEncoding f)
       (TagFieldsRename (Convert f)) (ProtocolFieldsRename (Convert f)) = Ok conv /\
     GetUsernamePassword (FlusherAuthentication f) = Ok (u, p) /\
     @NewLoadClient examples.scripted (sdkConfig f u p) = Ok client).
Proof.
  cbv zeta. split; [reflexivity|].
  exact (@Init_succeeds_iff examples.scripted scenarios.configured eq_refl).
Defined.

Lemma Init_success_state_witness :
  let f := scenarios.configured in
  let f' := (@Init examples.scripted f).1.2 in
  let evs := (@Init examples.scripted f).2 in
  LogProgressInterval f * util.Second < 2 ^ 63 /\
  @Init examples.scripted f = (None, f', evs) /\
  exists conv u p client,
    GetUsernamePassword (FlusherAuthentication f) = Ok (u, p) /\
    @NewLoadClient examples.scripted (sdkConfig f u p) = Ok client /\
    dorisClient f' = Some client /\ converter f' = Some conv /\
    IsReady f' = true /\
    Protocol (Convert f') = effectiveProtocol f /\
    Encoding (Convert f') = effectiveEncoding f /\
    clientCreations evs = [sdkConfig f u p] /\
    loadCalls evs = [] /\
    if bool_decide (LogProgressInterval f > 0) then
      progressTicker f' = Some (LogProgressInterval f) /\
      tickerStarts evs = [LogProgressInterval f]
    else progressTicker f' = progressTicker f /\ tickerStarts evs = [].
Proof.
  cbv zeta. split; [reflexivity|]. split; [reflexivity|].
  exact (@Init_success_state examples.scripted scenarios.configured _ _
           eq_refl eq_refl).
Defined.

Lemma Init_ready_iff_witness :
  dorisClient examples.fresh = None /\
  LogProgressInterval examples.fresh * util.Second < 2 ^ 63 /\
  let '(e, f', evs) := @Init examples.scripted examples.fresh in
  (IsReady f' = true <-> e = None) /\
  (e <> None ->
     dorisClient f' = None /\ progressTicker f' = progressTicker examples.fresh /\
     tickerStarts evs = []).
Proof.
  split; [reflexivity|]. split; [reflexivity|].
  exact (@Init_ready_iff examples.scripted examples.fresh eq_refl eq_refl).
Defined.

Lemma Init_error_stage_witness :
  (@Validate scenarios.offline scenarios.stranded).1 = None /\
  let '(e, f', evs) := @Init scenarios.offline scenarios.stranded in
  e = Some ("failed to create doris client: " +:+ "no endpoints") /\
  converter f' = Some tt /\ dorisClient f' = dorisClient scenarios.stranded /\
  progressTicker f' = progressTicker scenarios.stranded /\
  clientCreations evs = [sdkConfig scenarios.stranded "root" "password"].
Proof.
  split; [reflexivity|].
  exact (proj2 (@Init_error_stage scenarios.offline scenarios.stranded eq_refl)
           tt "root" "password" "no endpoints" eq_refl eq_refl eq_refl).
Defined.

End InitScenarios.


Section CombineFacts.
Import doris lifecycle.

Lemma combine_foldl (acc : list Byte.byte) (logs : list (list Byte.byte)) :
  foldl (fun buffer log => buffer ++ log ++ [newline]) acc logs =
  acc ++ concat ((fun log => log ++ [newline]) <$> logs).
Proof.
  revert acc. induction logs as [|l logs IH]; intros acc; cbn.
  - by rewrite app_nil_r.
  - rewrite IH. by rewrite <- !app_assoc.
Qed.

Lemma combine_concat (logs : list (list Byte.byte)) :
  combine logs = concat ((fun log => log ++ [newline]) <$> logs).
Proof. unfold combine. by rewrite combine_foldl. Qed.

Lemma combine_cons (l : list Byte.byte) (logs : list (list Byte.byte)) :
  combine (l :: logs) = l ++ newline :: combine logs.
Proof. rewrite !combine_concat. cbn. by rewrite <- app_assoc. Qed.

Lemma combine_length_ge (logs : list (list Byte.byte)) :
  (length logs <= length (combine logs))%nat.
Proof.
  induction logs as [|l logs IH]; [done|].
  rewrite combine_cons, length_app. cbn. lia.
Qed.

Lemma combine_nil (logs : list (list Byte.byte)) :
  combine logs = [] <-> logs = [].
Proof.
  destruct logs as [|l logs]; [done|]. rewrite combine_cons.
  split; [|done]. by destruct l.
Qed.

(** ** The buffer of a log group *)

(** X6: the buffer [Flush] sends for a log group holds every serialized log
    followed by one newline byte: its length is the sum of the lengths of
    the logs plus their number, and it is empty only when there is no
    log. *)
Theorem combine_length (logs : list (list Byte.byte)) :
  length (combine logs) = (sum_list (length <$> logs) + length logs)%nat /\
  (combine logs = [] <-> logs = []).
Proof.
  split.
  - induction logs as [|l logs IH]; [done|].
    rewrite combine_cons, length_app. cbn. rewrite IH. lia.
  - destruct logs as [|l logs]; [done|]. rewrite combine_cons.
    split; [|done]. by destruct l.
Qed.

Lemma splitLines_line (line l rest : list Byte.byte) :
  Forall (fun b => b <> newline) l ->
  splitLines line (l ++ newline :: rest) =
    let '(ls, tail) := splitLines [] rest in ((line ++ l) :: ls, tail).
Proof.
  revert line. induction l as [|b l IH]; intros line Hl; cbn.
  - rewrite app_nil_r. done.
  - apply Forall_cons in Hl as [Hb Hl].
    destruct (Byte.eqb b newline) eqn:Heq.
    { apply Byte.byte_dec_bl in Heq. done. }
    rewrite IH by done. by rewrite <- app_assoc.
Qed.

(** X7: when no serialized log contains a newline byte, reading the buffer
    line by line gives back exactly the logs, in order, with nothing left
    after the last newline. *)
Theorem combine_splitLines (logs : list (list Byte.byte)) :
  Forall (Forall (fun b => b <> newline)) logs ->
  splitLines [] (combine logs) = (logs, []).
Proof.
  induction logs as [|l logs IH]; intros Hl; [done|].
  apply Forall_cons in Hl as [Hl Hlogs].
  rewrite combine_cons, splitLines_line by done. by rewrite IH.
Qed.

End CombineFacts.

Lemma combine_splitLines_witness :
  Forall (Forall (fun b => b <> doris.newline)) [examples.ab; []; examples.ab] /\
  lifecycle.splitLines [] (doris.combine [examples.ab; []; examples.ab]) =
    ([examples.ab; []; examples.ab], []).
Proof.
  assert (Hl : Forall (Forall (fun b => b <> doris.newline))
                 [examples.ab; []; examples.ab]).
  { repeat constructor; discriminate. }
  exact (conj Hl (combine_splitLines _ Hl)).
Defined.


Section FlushFacts.
Import load doris lifecycle.
Context `{Externals}.

(** ** Flush *)

Lemma payload_sendable (conv : Converter) (g : LogGroup) :
  payload conv g =
    match ToByteStream conv g with
    | Ok (l :: ls) => Some (combine (l :: ls))
    | _ => None
    end.
Proof.
  unfold payload. destruct (ToByteStream conv g) as [[|l ls]|err]; [done| |done].
  rewrite bool_decide_eq_false_2; [done|].
  intros Hz. apply length_zero_iff_nil, combine_nil in Hz. done.
Qed.

Lemma omap_cons {A B} (g : A -> option B) (x : A) (l : list A) :
  omap g (x :: l) =
    match g x with
    | Some b => b :: omap g l
    | None => omap g l
    end.
Proof. done. Qed.

Lemma omap_payload (conv : Converter) (groups : list LogGroup) :
  omap (payload conv) groups =
    omap (fun g => match ToByteStream conv g with
                   | Ok (l :: ls) => Some (combine (l :: ls))
                   | _ => None
                   end) groups.
Proof.
  induction groups as [|g groups IH]; [done|].
  by rewrite payloads_cons, payload_sendable, IH, omap_cons.
Qed.

Lemma payloads_nonempty (conv : Converter) (groups : list LogGroup) :
  Forall (fun buf => buf <> []) (omap (payload conv) groups).
Proof.
  induction groups as [|g groups IH]; [constructor|].
  rewrite payloads_cons, payload_sendable.
  destruct (ToByteStream conv g) as [[|l ls]|err]; try done.
  constructor; [|done]. intros Hnil. by apply combine_nil in Hnil.
Qed.

(** X8: an initialized [Flush] sends a buffer exactly for the log groups
    whose serialization succeeds with at least one log, and skips the
    others: the buffers of its load calls are, in order, a prefix of the
    combined logs of those groups, all of them when it returns no error,
    and none of them is empty. *)
Theorem Flush_skips_iff (f : FlusherDoris) (groups : list LogGroup) (w : World)
    (c : DorisLoadClient) (conv : Converter) :
  dorisClient f = Some c -> converter f = Some conv ->
  let sendable := fun g => match ToByteStream conv g with
                           | Ok (l :: ls) => Some (combine (l :: ls))
                           | _ => None
                           end in
  let '(out, f', w', evs) := Flush f groups w in
  (loadCalls evs).*1 `prefix_of` omap sendable groups /\
  (out = Returned None -> (loadCalls evs).*1 = omap sendable groups) /\
  Forall (fun buf => buf <> []) (loadCalls evs).*1.
Proof.
  intros Hc Hconv. cbv zeta. unfold Flush. rewrite Hc, Hconv.
  pose proof (flushGroups_outcome c conv groups (stats f) w) as Ho.
  pose proof (payloads_nonempty conv groups) as Hne.
  rewrite <- omap_payload.
  destruct (flushGroups c conv groups (stats f) w) as [[[e st'] w'] evs].
  destruct Ho as (Hpre & _ & Hnone & _).
  split; [done|]. split.
  - intros [= ->]. by destruct (Hnone eq_refl).
  - destruct Hpre as [k Hk]. rewrite Hk in Hne.
    by apply Forall_app in Hne as [Hne _].
Qed.

Lemma omap_length_le {A B} (g : A -> option B) (l : list A) :
  (length (omap g l) <= length l)%nat.
Proof. induction l as [|x l IH]; cbn; [done|]. destruct (g x); cbn; lia. Qed.

Lemma set_stats_id (f : FlusherDoris) : set_stats (stats f) f = f.
Proof. by destruct f. Qed.

Lemma flushGroups_quiet (c : DorisLoadClient) (conv : Converter)
    (groups : list LogGroup) (st : statistics) (w : World) :
  let '(e, st', w', evs) := flushGroups c conv groups st w in
  loadCalls evs = [] -> e = None /\ st' = st /\ w' = w.
Proof.
  revert st w. induction groups as [|g groups IH]; intros st w; [done|].
  destruct (payload conv g) as [buf|] eqn:Hp.
  - destruct (flushGroups_send c conv g groups st w buf Hp) as (l1 & l2 & l3 & ->).
    destruct (ClientLoad c buf w) as [[response|err] w1]; [|done].
    case_decide; [|done].
    by destruct (flushGroups c conv groups _ w1) as [[[e st'] w'] evs].
  - destruct (flushGroups_skip c conv g groups st w Hp) as (l1 & l2 & ->).
    specialize (IH st w).
    destruct (flushGroups c conv groups st w) as [[[e st'] w'] evs].
    by rewrite !loadCalls_logged_cons.
Qed.

(** X9: [Flush] changes nothing of the flusher but its statistics; when it
    made no load call, the flusher and the server are exactly as before; and
    it makes at most one load call for each log group. *)
Theorem Flush_frame (f : FlusherDoris) (groups : list LogGroup) (w : World) :
  let '(out, f', w', evs) := Flush f groups w in
  f' = set_stats (stats f') f /\
  (loadCalls evs = [] -> f' = f /\ w' = w) /\
  (length (loadCalls evs) <= length groups)%nat.
Proof.
  unfold Flush. destruct (dorisClient f) as [c|].
  2:{ cbn. rewrite set_stats_id. repeat split; lia. }
  destruct (converter f) as [conv|].
  2:{ destruct groups; cbn; rewrite set_stats_id; repeat split; lia. }
  pose proof (flushGroups_quiet c conv groups (stats f) w) as Hq.
  pose proof (flushGroups_outcome c conv groups (stats f) w) as Ho.
  destruct (flushGroups c conv groups (stats f) w) as [[[e st'] w'] evs].
  split; [by destruct f|]. split.
  - intros Hnil. destruct (Hq Hnil) as (_ & -> & ->). by rewrite set_stats_id.
  - destruct Ho as (Hpre & _). apply prefix_length in Hpre.
    rewrite length_fmap in Hpre.
    pose proof (omap_length_le (payload conv) groups). lia.
Qed.

(** X10: when every log group is skipped (none serializes to a log), an
    initialized flusher returns no error, makes no load call, and leaves
    itself and the server untouched. *)
Theorem Flush_all_skipped (f : FlusherDoris) (groups : list LogGroup) (w : World)
    (c : DorisLoadClient) (conv : Converter) :
  dorisClient f = Some c -> converter f = Some conv ->
  Forall (fun g => payload conv g = None) groups ->
  let '(out, f', w', evs) := Flush f groups w in
  out = Returned None /\ f' = f /\ w' = w /\ loadCalls evs = [].
Proof.
  intros Hc Hconv Hskip.
  assert (Hnone : omap (payload conv) groups = []).
  { induction Hskip as [|g gs Hg _ IH]; [done|]. cbn. by rewrite Hg. }
  unfold Flush. rewrite Hc, Hconv.
  pose proof (flushGroups_outcome c conv groups (stats f) w) as Ho.
  pose proof (flushGroups_quiet c conv groups (stats f) w) as Hq.
  destruct (flushGroups c conv groups (stats f) w) as [[[e st'] w'] evs].
  destruct Ho as (Hpre & _). rewrite Hnone in Hpre.
  apply prefix_nil_inv in Hpre. apply fmap_nil_inv in Hpre.
  destruct (Hq Hpre) as (-> & -> & ->). by rewrite set_stats_id.
Qed.

End FlushFacts.

Lemma Flush_skips_iff_witness :
  doris.dorisClient examples.ready = Some examples.singleShot /\
  doris.converter examples.ready = Some tt /\
  let sendable := fun g => match @doris.ToByteStream examples.scripted tt g with
                           | Ok (l :: ls) => Some (doris.combine (l :: ls))
                           | _ => None
                           end in
  let '(out, f', w', evs) :=
    @doris.Flush examples.scripted examples.ready examples.groups scenarios.script in
  (doris.loadCalls evs).*1 `prefix_of` omap sendable examples.groups /\
  (out = doris.Returned None ->
     (doris.loadCalls evs).*1 = omap sendable examples.groups) /\
  Forall (fun buf => buf <> []) (doris.loadCalls evs).*1.
Proof.
  split; [reflexivity|]. split; [reflexivity|].
  exact (@Flush_skips_iff examples.scripted examples.ready examples.groups
           scenarios.script examples.singleShot tt eq_refl eq_refl).
Defined.

Lemma Flush_all_skipped_witness :
  doris.dorisClient examples.ready = Some examples.singleShot /\
  doris.converter examples.ready = Some tt /\
  Forall (fun g => @doris.payload examples.scripted tt g = None) [[]; []] /\
  let '(out, f', w', evs) :=
    @doris.Flush examples.scripted examples.ready [[]; []] scenarios.script in
  out = doris.Returned None /\ f' = examples.ready /\ w' = scenarios.script /\
  doris.loadCalls evs = [].
Proof.
  assert (Hs : Forall (fun g => @doris.payload examples.scripted tt g = None)
                 [[]; []]).
  { repeat constructor. }
  split; [reflexivity|]. split; [reflexivity|]. split; [exact Hs|].
  exact (@Flush_all_skipped examples.scripted examples.ready [[]; []]
           scenarios.script examples.singleShot tt eq_refl eq_refl Hs).
Defined.


Section FlushMore.
Import load doris lifecycle.
Context `{Externals}.

Lemma flushGroups_cause (c : DorisLoadClient) (conv : Converter)
    (groups : list LogGroup) (st : statistics) (w : World) :
  let '(e, st', w', evs) := flushGroups c conv groups st w in
  e = match last (loadCalls evs) with
      | None => None
      | Some call => loadError call.2
      end.
Proof.
  revert st w. induction groups as [|g groups IH]; intros st w; [done|].
  destruct (payload conv g) as [buf|] eqn:Hp.
  - destruct (flushGroups_send c conv g groups st w buf Hp) as (l1 & l2 & l3 & ->).
    destruct (ClientLoad c buf w) as [[response|err] w1]; [|done].
    case_decide as Hst.
    + specialize (IH (updateStatistics st (uint64 (LoadBytes (Resp response)))
                        (uint64 (NumberLoadedRows (Resp response)))) w1).
      destruct (flushGroups c conv groups _ w1) as [[[e st'] w'] evs].
      rewrite !loadCalls_logged_cons, loadCalls_call_cons, loadCalls_logged_cons.
      destruct (loadCalls evs) as [|call calls]; cbn in *.
      * by rewrite decide_True.
      * done.
    + cbn. by rewrite decide_False.
  - destruct (flushGroups_skip c conv g groups st w Hp) as (l1 & l2 & ->).
    specialize (IH st w).
    destruct (flushGroups c conv groups st w) as [[[e st'] w'] evs].
    by rewrite !loadCalls_logged_cons.
Qed.

(** X11: the error an initialized flusher returns from [Flush] is decided
    by its last load call alone: none (or no call at all) gives no error, a
    transport error gives [failed to load data to doris], and an answer
    whose status is not SUCCESS gives [doris load failed] with the server's
    message. *)
Theorem Flush_error_cause (f : FlusherDoris) (groups : list LogGroup) (w : World)
    (c : DorisLoadClient) (conv : Converter) :
  dorisClient f = Some c -> converter f = Some conv ->
  let '(out, f', w', evs) := Flush f groups w in
  out = Returned match last (loadCalls evs) with
                 | None => None
                 | Some call => loadError call.2
                 end.
Proof.
  intros Hc Hconv. unfold Flush. rewrite Hc, Hconv.
  pose proof (flushGroups_cause c conv groups (stats f) w) as Hcause.
  destruct (flushGroups c conv groups (stats f) w) as [[[e st'] w'] evs].
  by rewrite Hcause.
Qed.

Lemma statsOp_step (call : list Byte.byte * result LoadResponse)
    (calls : list (list Byte.byte * result LoadResponse)) (st : statistics) :
  exists st1,
    runOps (omap statsOp (call :: calls)) st = runOps (omap statsOp calls) st1 /\
    totalBytes st1 `mod` two64 = (totalBytes st + loadedBytes call) `mod` two64 /\
    totalRows st1 `mod` two64 = (totalRows st + loadedRows call) `mod` two64 /\
    lastBytes st1 `mod` two64 = (lastBytes st + loadedBytes call) `mod` two64 /\
    lastRows st1 `mod` two64 = (lastRows st + loadedRows call) `mod` two64.
Proof.
  destruct call as [buf [response|err]]; cbn.
  - unfold statsOp, loadedBytes, loadedRows; cbn. case_decide; cbn.
    + eexists. split; [reflexivity|]. cbn.
      rewrite !add64_uint64, !Zmod_mod. done.
    + exists st. by rewrite !Z.add_0_r.
  - exists st. unfold loadedBytes, loadedRows; cbn. by rewrite !Z.add_0_r.
Qed.

Lemma runOps_counters (calls : list (list Byte.byte * result LoadResponse))
    (st : statistics) :
  let st' := runOps (omap statsOp calls) st in
  totalBytes st' `mod` two64 =
    (totalBytes st + total (loadedBytes <$> calls)) `mod` two64 /\
  totalRows st' `mod` two64 =
    (totalRows st + total (loadedRows <$> calls)) `mod` two64 /\
  lastBytes st' `mod` two64 =
    (lastBytes st + total (loadedBytes <$> calls)) `mod` two64 /\
  lastRows st' `mod` two64 =
    (lastRows st + total (loadedRows <$> calls)) `mod` two64.
Proof.
  cbv zeta. revert st. induction calls as [|call calls IH]; intros st.
  { cbn. by rewrite !Z.add_0_r. }
  destruct (statsOp_step call calls st) as (st1 & -> & Hb & Hr & Hlb & Hlr).
  destruct (IH st1) as (Hb' & Hr' & Hlb' & Hlr').
  rewrite Hb', Hr', Hlb', Hlr', !fmap_cons.
  change (total (?x :: ?l)) with (x + total l).
  rewrite !Z.add_assoc.
  rewrite <- (Zplus_mod_idemp_l (totalBytes st1)), Hb, Zplus_mod_idemp_l.
  rewrite <- (Zplus_mod_idemp_l (totalRows st1)), Hr, Zplus_mod_idemp_l.
  rewrite <- (Zplus_mod_idemp_l (lastBytes st1)), Hlb, Zplus_mod_idemp_l.
  rewrite <- (Zplus_mod_idemp_l (lastRows st1)), Hlr, Zplus_mod_idemp_l.
  done.
Qed.

(** X12: after [Flush], each of the four counters has grown, modulo 2^64,
    by the bytes (or rows) the server reported for the load calls of this
    [Flush] that succeeded; failed calls add nothing. *)
Theorem Flush_counters (f : FlusherDoris) (groups : list LogGroup) (w : World)
    (c : DorisLoadClient) (conv : Converter) :
  dorisClient f = Some c -> converter f = Some conv ->
  let '(out, f', w', evs) := Flush f groups w in
  let calls := loadCalls evs in
  totalBytes (stats f') `mod` two64 =
    (totalBytes (stats f) + total (loadedBytes <$> calls)) `mod` two64 /\
  totalRows (stats f') `mod` two64 =
    (totalRows (stats f) + total (loadedRows <$> calls)) `mod` two64 /\
  lastBytes (stats f') `mod` two64 =
    (lastBytes (stats f) + total (loadedBytes <$> calls)) `mod` two64 /\
  lastRows (stats f') `mod` two64 =
    (lastRows (stats f) + total (loadedRows <$> calls)) `mod` two64.
Proof.
  intros Hc Hconv. unfold Flush. rewrite Hc, Hconv.
  pose proof (flushGroups_outcome c conv groups (stats f) w) as Ho.
  destruct (flushGroups c conv groups (stats f) w) as [[[e st'] w'] evs].
  destruct Ho as (_ & -> & _). cbn. apply runOps_counters.
Qed.

Lemma legacy_flushGroups (c : DorisLoadClient) (conv : Converter)
    (groups : list LogGroup) (st : statistics) (w : World) :
  legacy.flushGroups c conv groups w =
    let '(e, st', w', evs) := flushGroups c conv groups st w in (e, w', evs).
Proof.
  revert st w. induction groups as [|g groups IH]; intros st w; [done|].
  cbn [legacy.flushGroups flushGroups].
  destruct (ToByteStream conv g) as [logs|err].
  - case_bool_decide.
    + rewrite (IH st w). by destruct (flushGroups c conv groups st w) as [[[? ?] ?] ?].
    + destruct (ClientLoad c (combine logs) w) as [[response|err] w1]; [|done].
      case_decide; [|done].
      rewrite (IH (updateStatistics st (uint64 (LoadBytes (Resp response)))
                     (uint64 (NumberLoadedRows (Resp response)))) w1).
      by destruct (flushGroups c conv groups _ w1) as [[[? ?] ?] ?].
  - rewrite (IH st w). by destruct (flushGroups c conv groups st w) as [[[? ?] ?] ?].
Qed.

(** X13: the earlier revision of the flusher (flusher_doris.go) makes the
    same load calls with the same payloads, logs at the same points, leaves
    the server in the same state and returns the same error as the revision
    with statistics; it differs only in not touching the flusher. *)
Theorem legacy_Flush_agrees (f : FlusherDoris) (groups : list LogGroup) (w : World) :
  legacy.Flush f groups w =
    let '(out, f', w', evs) := Flush f groups w in (out, f, w', evs).
Proof.
  unfold legacy.Flush, Flush. destruct (dorisClient f) as [c|]; [|done].
  destruct (converter f) as [conv|]; [|by destruct groups].
  rewrite (legacy_flushGroups c conv groups (stats f) w).
  by destruct (flushGroups c conv groups (stats f) w) as [[[? ?] ?] ?].
Qed.

End FlushMore.

Lemma Flush_error_cause_witness :
  doris.dorisClient examples.ready = Some examples.singleShot /\
  doris.converter examples.ready = Some tt /\
  let '(out, f', w', evs) :=
    @doris.Flush examples.scripted examples.ready examples.groups scenarios.script in
  out = doris.Returned match last (doris.loadCalls evs) with
                       | None => None
                       | Some call => lifecycle.loadError call.2
                       end.
Proof.
  split; [reflexivity|]. split; [reflexivity|].
  exact (@Flush_error_cause examples.scripted examples.ready examples.groups
           scenarios.script examples.singleShot tt eq_refl eq_refl).
Defined.

Lemma Flush_counters_witness :
  doris.dorisClient examples.ready = Some examples.singleShot /\
  doris.converter examples.ready = Some tt /\
  let '(out, f', w', evs) :=
    @doris.Flush examples.scripted examples.ready examples.groups scenarios.script in
  let calls := doris.loadCalls evs in
  doris.totalBytes (doris.stats f') `mod` doris.two64 =
    (doris.totalBytes (doris.stats examples.ready) +
     lifecycle.total (lifecycle.loadedBytes <$> calls)) `mod` doris.two64 /\
  doris.totalRows (doris.stats f') `mod` doris.two64 =
    (doris.totalRows (doris.stats examples.ready) +
     lifecycle.total (lifecycle.loadedRows <$> calls)) `mod` doris.two64 /\
  doris.lastBytes (doris.stats f') `mod` doris.two64 =
    (doris.lastBytes (doris.stats examples.ready) +
     lifecycle.total (lifecycle.loadedBytes <$> calls)) `mod` doris.two64 /\
  doris.lastRows (doris.stats f') `mod` doris.two64 =
    (doris.lastRows (doris.stats examples.ready) +
     lifecycle.total (lifecycle.loadedRows <$> calls)) `mod` doris.two64.
Proof.
  split; [reflexivity|]. split; [reflexivity|].
  exact (@Flush_counters examples.scripted examples.ready examples.groups
           scenarios.script examples.singleShot tt eq_refl eq_refl).
Defined.


Section StatisticsFacts.
Import doris lifecycle.

Lemma windowed_applyOp (s : statistics) (o : Op) :
  windowed s -> windowed (applyOp s o).
Proof.
  intros [Hb Hr]. destruct o as [b r|i t]; unfold windowed; cbn; unfold add64.
  - rewrite Hb, Hr, !Zplus_mod_idemp_l, !Zminus_mod_idemp_l.
    split; f_equal; lia.
  - by rewrite !Z.sub_diag.
Qed.

(** ** Statistics *)

Lemma sequential_cons (o : Op) (ops : list Op) :
  atomics.sequential (o :: ops) = atomics.stepsOf o ++ atomics.sequential ops.
Proof. done. Qed.

Lemma runSteps_app (s1 s2 : list atomics.Step) (st : statistics * atomics.Locals) :
  atomics.runSteps (s1 ++ s2) st =
    let '(st1, l1) := atomics.runSteps s1 st in
    let '(st2, l2) := atomics.runSteps s2 st1 in
    (st2, l1 ++ l2).
Proof.
  revert st. induction s1 as [|a s1 IH]; intros st; cbn [app atomics.runSteps].
  - by destruct (atomics.runSteps s2 st).
  - destruct (atomics.exec st a) as [st1 l1]. rewrite IH.
    destruct (atomics.runSteps s1 st1) as [st2 l2].
    destruct (atomics.runSteps s2 st2) as [st3 l3]. by rewrite app_assoc.
Qed.

Lemma runSteps_call (o : Op) (s : statistics) (l : atomics.Locals) :
  exists l',
    atomics.runSteps (atomics.stepsOf o) (s, l) =
      (applyOp s o, l',
       match o with
       | Loaded _ _ => []
       | Report i t => [(logProgress s i t).2]
       end).
Proof. destruct o as [b r|i t]; by eexists. Qed.

Lemma runSteps_sequential (ops : list Op) (s : statistics) (l : atomics.Locals) :
  exists l',
    atomics.runSteps (atomics.sequential ops) (s, l) =
      (runOps ops s, l', reportLines ops s).
Proof.
  revert s l. induction ops as [|o ops IH]; intros s l; [by eexists|].
  rewrite sequential_cons, runSteps_app.
  destruct (runSteps_call o s l) as [l1 ->].
  destruct (IH (applyOp s o) l1) as [l2 ->].
  exists l2. by destruct o.
Qed.


(** A report that falls between the additions of an update leaves the
    windowed byte counter holding bytes that the report has already counted
    as reported. *)
Example interleaved_report_breaks_window :
  let steps := [atomics.AddTotalBytes 5; atomics.AddTotalRows 1] ++
               atomics.logProgress 10 7 ++
               [atomics.AddLastBytes 5; atomics.AddLastRows 1] in
  let l := {| atomics.readBytes := 0; atomics.readRows := 0;
              atomics.swappedBytes := 0; atomics.swappedRows := 0 |} in
  let s' := (atomics.runSteps steps (newStatistics 0, l)).1.1 in
  lastBytes s' = 5 /\ (totalBytes s' - lastReportBytes s') `mod` two64 = 0.
Proof. by vm_compute. Qed.

Lemma reportLines_conserve (ops : list Op) (s : statistics) :
  (total (lineLastBytes <$> reportLines ops s) + lastBytes (runOps ops s))
    `mod` two64 =
  (lastBytes s + (totalBytes (runOps ops s) - totalBytes s)) `mod` two64 /\
  (total (lineLastRows <$> reportLines ops s) + lastRows (runOps ops s))
    `mod` two64 =
  (lastRows s + (totalRows (runOps ops s) - totalRows s)) `mod` two64.
Proof.
  revert s. induction ops as [|[b r|i t] ops IH]; intros s.
  - cbn. split; f_equal; lia.
  - destruct (IH (updateStatistics s b r)) as [Hb Hr].
    change (runOps (Loaded b r :: ops) s) with (runOps ops (updateStatistics s b r)).
    cbn [reportLines]. rewrite Hb, Hr. cbn. unfold add64.
    split.
    + rewrite Zplus_mod_idemp_l.
      rewrite <- (Zplus_mod_idemp_r (_ - (totalBytes s + b) `mod` two64)).
      rewrite Zminus_mod_idemp_r, Zplus_mod_idemp_r. f_equal; lia.
    + rewrite Zplus_mod_idemp_l.
      rewrite <- (Zplus_mod_idemp_r (_ - (totalRows s + r) `mod` two64)).
      rewrite Zminus_mod_idemp_r, Zplus_mod_idemp_r. f_equal; lia.
  - destruct (IH (logProgress s i t).1) as [Hb Hr].
    change (runOps (Report i t :: ops) s) with (runOps ops (logProgress s i t).1).
    cbn [reportLines]. rewrite !fmap_cons.
    change (total (?x :: ?l)) with (x + total l).
    cbn in *. split.
    + rewrite <- Z.add_assoc, <- Zplus_mod_idemp_r, Hb, Zplus_mod_idemp_r.
      f_equal; lia.
    + rewrite <- Z.add_assoc, <- Zplus_mod_idemp_r, Hr, Zplus_mod_idemp_r.
      f_equal; lia.
Qed.

(** X15: no update is lost or counted twice by the reports: the bytes
    (rows) shown in the windows of all progress lines so far, plus what is
    still in the current window, add up to the lifetime counter, modulo
    2^64. *)
Theorem reports_conserve (ops : list Op) (now : Z) :
  let s := runOps ops (newStatistics now) in
  let lines := reportLines ops (newStatistics now) in
  totalBytes s = (total (lineLastBytes <$> lines) + lastBytes s) `mod` two64 /\
  totalRows s = (total (lineLastRows <$> lines) + lastRows s) `mod` two64.
Proof.
  cbv zeta. destruct (reportLines_conserve ops (newStatistics now)) as [Hb Hr].
  rewrite Hb, Hr. cbn. rewrite !Z.sub_0_r.
  assert (Hrange : forall ops s, 0 <= totalBytes s < two64 -> 0 <= totalRows s < two64 ->
            0 <= totalBytes (runOps ops s) < two64 /\
            0 <= totalRows (runOps ops s) < two64).
  { clear. intros ops. induction ops as [|[b r|i t] ops IH]; intros s Hb Hr; [done| |].
    - apply IH; cbn; unfold add64; by apply Z.mod_pos_bound.
    - by apply IH. }
  destruct (Hrange ops (newStatistics now)) as [Hb' Hr']; [done..|].
  by rewrite !Z.mod_small.
Qed.

End StatisticsFacts.



Section StopFacts.
Import load doris lifecycle.
Context `{Externals}.

Lemma ticks_keep (times : list Z) (rt : Runtime) :
  let '(rt', lines) := ticks times rt in
  stopChanClosed rt' = stopChanClosed rt /\
  reporters rt' = reporters rt /\
  flusher rt' = set_stats (stats (flusher rt')) (flusher rt) /\
  totalBytes (stats (flusher rt')) = totalBytes (stats (flusher rt)) /\
  totalRows (stats (flusher rt')) = totalRows (stats (flusher rt)) /\
  (length lines <= length times)%nat.
Proof.
  revert rt. induction times as [|now times IH]; intros rt.
  { cbn. by rewrite set_stats_id. }
  cbn [ticks]. unfold tick. destruct (reporters rt) as [|n] eqn:Hrep.
  - specialize (IH rt). destruct (ticks times rt) as [rt2 l2].
    cbn. destruct IH as (? & ? & ? & ? & ? & ?). repeat split; try done; lia.
  - cbn. match goal with |- context [ticks times ?r] =>
      specialize (IH r); destruct (ticks times r) as [rt2 l2] end.
    cbn in *. destruct IH as (-> & -> & Hf & -> & -> & Hl).
    repeat split; try done; try lia.
Qed.

(** ** Stop *)

(** X16: on a flusher with a progress ticker, the first [Stop] returns no
    error, closes the channel, and leaves no reporter running; it changes
    nothing of the flusher but its statistics, whose lifetime counters are
    kept; the reporter writes at most one line for each tick still pending.
    A second [Stop] closes the closed channel and panics. *)
Theorem Stop_twice_panics (late late' : list Z) (rt : Runtime) :
  progressTicker (flusher rt) <> None -> stopChanClosed rt = false ->
  let '(out, rt', lines) := Stop late rt in
  out = Returned None /\
  stopChanClosed rt' = true /\ reporters rt' = 0%nat /\
  flusher rt' = set_stats (stats (flusher rt')) (flusher rt) /\
  totalBytes (stats (flusher rt')) = totalBytes (stats (flusher rt)) /\
  totalRows (stats (flusher rt')) = totalRows (stats (flusher rt)) /\
  (length lines <= length late)%nat /\
  Stop late' rt' = (Panicked, rt', []).
Proof.
  intros Ht Hopen. unfold Stop at 1.
  destruct (progressTicker (flusher rt)) as [t|] eqn:Hpt; [|done]. rewrite Hopen.
  match goal with |- context [ticks late ?r] =>
    pose proof (ticks_keep late r) as Hk; destruct (ticks late r) as [rt2 lines] end.
  cbn in *. destruct Hk as (_ & _ & Hf & Hb & Hr & Hl).
  repeat split; try done.
  unfold Stop; cbn. rewrite Hf. cbn. by rewrite Hpt.
Qed.

(** X17: when [LogProgressInterval] is not positive, [Init] starts no
    ticker and no reporter, whether it succeeds or fails, and [Stop] then
    returns no error any number of times and touches nothing. *)
Theorem Stop_without_progress (f : FlusherDoris) :
  progressTicker f = None -> LogProgressInterval f <= 0 ->
  let '(e, rt, evs) := InitRuntime (created f) in
  progressTicker (flusher rt) = None /\ reporters rt = 0%nat /\
  forall late, Stop late rt = (Returned None, rt, []).
Proof.
  intros Hpt Hint. unfold InitRuntime, created. cbn [flusher reporters stopChanClosed].
  rewrite Init_unfold. destruct (Validate f) as [[e|] logs]; cbv zeta.
  { events. unfold Stop; cbn. by rewrite Hpt. }
  destruct (NewConverter _ _ _ _) as [conv|err].
  2:{ events. unfold Stop; cbn. by rewrite Hpt. }
  destruct (GetUsernamePassword _) as [[u p]|err].
  2:{ events. unfold Stop; cbn. by rewrite Hpt. }
  destruct (NewLoadClient _) as [client|err].
  2:{ events. unfold Stop; cbn. by rewrite Hpt. }
  rewrite bool_decide_eq_false_2 by lia.
  events. unfold Stop; cbn. by rewrite Hpt.
Qed.

(** X18: a successful [Init] with a positive [LogProgressInterval] (which,
    in nanoseconds, fits [int64]) leaves one reporter running on an open
    channel, with the ticker set to the interval; each tick then writes one
    progress line, computed from the statistics as they are. *)
Theorem Init_starts_reporter (f f' : FlusherDoris) (evs : list Event) :
  Init f = (None, f', evs) -> LogProgressInterval f > 0 ->
  LogProgressInterval f * util.Second < 2 ^ 63 ->
  let '(e, rt, evs') := InitRuntime (created f) in
  e = None /\ flusher rt = f' /\ reporters rt = 1%nat /\
  stopChanClosed rt = false /\
  progressTicker (flusher rt) = Some (LogProgressInterval f) /\
  forall now, (tick now rt).2 =
    [(logProgress (stats f) (LogProgressInterval f) now).2].
Proof.
  intros Hinit Hpos _.
  unfold InitRuntime, created. cbn [flusher reporters stopChanClosed].
  rewrite Hinit. revert Hinit. rewrite Init_unfold.
  destruct (Validate f) as [[e|] logs]; [done|]. cbv zeta.
  destruct (NewConverter _ _ _ _) as [conv|err]; [|done].
  destruct (GetUsernamePassword _) as [[u p]|err]; [|done].
  destruct (NewLoadClient _) as [client|err]; [|done].
  rewrite bool_decide_eq_true_2 by done. intros [= <- <-].
  events. by repeat split.
Qed.

End StopFacts.

Section StopScenarios.
Import load doris lifecycle.

Lemma Stop_twice_panics_witness :
  progressTicker (flusher scenarios.running) <> None /\
  stopChanClosed scenarios.running = false /\
  let '(out, rt', lines) := @Stop examples.scripted [5] scenarios.running in
  out = Returned None /\
  stopChanClosed rt' = true /\ reporters rt' = 0%nat /\
  flusher rt' = set_stats (stats (flusher rt')) (flusher scenarios.running) /\
  totalBytes (stats (flusher rt')) = totalBytes (stats (flusher scenarios.running)) /\
  totalRows (stats (flusher rt')) = totalRows (stats (flusher scenarios.running)) /\
  (length lines <= length [5])%nat /\
  @Stop examples.scripted [] rt' = (Panicked, rt', []).
Proof.
  assert (Ht : progressTicker (flusher scenarios.running) <> None).
  { discriminate. }
  split; [exact Ht|]. split; [reflexivity|].
  exact (@Stop_twice_panics examples.scripted [5] [] scenarios.running Ht eq_refl).
Defined.

Lemma Stop_without_progress_witness :
  progressTicker scenarios.quiet = None /\
  LogProgressInterval scenarios.quiet <= 0 /\
  let '(e, rt, evs) := @InitRuntime examples.scripted (created scenarios.quiet) in
  progressTicker (flusher rt) = None /\ reporters rt = 0%nat /\
  forall late, Stop late rt = (Returned None, rt, []).
Proof.
  split; [reflexivity|]. split; [exact (Z.le_refl 0)|].
  exact (@Stop_without_progress examples.scripted scenarios.quiet eq_refl
           (Z.le_refl 0)).
Defined.

Lemma Init_starts_reporter_witness :
  let f := scenarios.configured in
  @Init examples.scripted f =
    (None, (@Init examples.scripted f).1.2, (@Init examples.scripted f).2) /\
  LogProgressInterval f > 0 /\
  LogProgressInterval f * util.Second < 2 ^ 63 /\
  let '(e, rt, evs') := @InitRuntime examples.scripted (created f) in
  e = None /\ flusher rt = (@Init examples.scripted f).1.2 /\
  reporters rt = 1%nat /\
  stopChanClosed rt = false /\
  progressTicker (flusher rt) = Some (LogProgressInterval f) /\
  forall now, (tick now rt).2 =
    [(logProgress (stats f) (LogProgressInterval f) now).2].
Proof.
  cbv zeta. split; [reflexivity|]. split; [reflexivity|].
  split; [reflexivity|].
  exact (@Init_starts_reporter examples.scripted scenarios.configured _ _
           eq_refl eq_refl eq_refl).
Defined.

End StopScenarios.


Section ReplayMore.
Import replay.

Lemma attemptBodies_app (r1 r2 : list nat) (g : BodyFunc) :
  attemptBodies (r1 ++ r2) g =
    let '(b1, g1) := attemptBodies r1 g in
    let '(b2, g2) := attemptBodies r2 g1 in
    (b1 ++ b2, g2).
Proof.
  revert g. induction r1 as [|n r1 IH]; intros g; cbn.
  - by destruct (attemptBodies r2 g).
  - destruct (getBodyFunc g) as [[b|e] g1]; rewrite IH;
      destruct (attemptBodies r1 _) as [b1 g2];
      by destruct (attemptBodies r2 g2).
Qed.

(** ** Replaying the request body *)

(** X19: on an open seekable reader every attempt starts from the
    beginning, so after any number of attempts the reader stands where the
    last attempt alone left it: at the number of bytes that attempt read,
    or at the end of the content. *)
Theorem seek_replay_final_position (s : SeekReader) (reads : list nat) (n : nat) :
  closed s = false ->
  (attemptBodies (reads ++ [n]) (SeekBody s)).2 =
    SeekBody {| content := content s;
                offset := Nat.min n (length (content s));
                closed := false |} /\
  (attemptBodies (reads ++ [n]) (SeekBody s)).2 =
    (attemptBodies [n] (SeekBody s)).2.
Proof.
  intros Hopen.
  assert (Hlast : forall g, tracks s g ->
            (attemptBodies [n] g).2 =
              SeekBody {| content := content s;
                          offset := Nat.min n (length (content s));
                          closed := false |}).
  { intros [[c o cl]|] Hg; [|done]. destruct Hg as [Hc Hcl]. cbn in Hc, Hcl.
    subst c cl. cbn. unfold Seek0; cbn. rewrite Hopen. cbn. unfold advance; cbn.
    done. }
  rewrite attemptBodies_app.
  destruct (attemptBodies_seek s reads (SeekBody s)) as [_ Htr]; [done|].
  destruct (attemptBodies reads (SeekBody s)) as [b1 g1]. cbn [snd] in Htr.
  specialize (Hlast g1 Htr) as Hg1.
  destruct (attemptBodies [n] g1) as [b2 g2]. cbn in *.
  split; [done|]. rewrite Hg1. symmetry. by apply (Hlast (SeekBody s)).
Qed.

(** X20: a closed seekable reader is accepted when the body function is
    made, and then every attempt fails with [failed to seek to start],
    leaving the reader as it was. *)
Theorem closed_seeker_fails_each_attempt (s : SeekReader) (reads : list nat) :
  closed s = true ->
  newBodyFunc (Seeker s) = Ok (SeekBody s) /\
  attemptBodies reads (SeekBody s) =
    (replicate (length reads)
       (Err "failed to seek to start: file already closed"),
     SeekBody s).
Proof.
  intros Hcl. split; [done|].
  induction reads as [|n reads IH]; [done|].
  cbn. unfold Seek0. rewrite Hcl. cbn. by rewrite IH.
Qed.

(** X21: a reader without random access is read to its end once, when the
    body function is made: a read error is returned then; otherwise the
    reader is left empty, and no attempt touches it again. *)
Theorem stream_is_consumed (s : StreamReader) :
  (failing s = true ->
     newBodyFunc (Stream s) = Err "failed to buffer reader content: read error") /\
  (failing s = false ->
     exists o,
       newBodyFunc (Stream s) = Ok (BufferBody (pending s) o) /\
       pending o = [] /\ drained o = S (drained s) /\
       (ReadFrom o).1 = Ok [] /\
       forall reads,
         (attemptBodies reads (BufferBody (pending s) o)).2 =
           BufferBody (pending s) o).
Proof.
  split; intros Hf; unfold newBodyFunc, ReadFrom; rewrite Hf; [done|].
  eexists. split; [reflexivity|]. cbn. repeat split.
  intros reads. by rewrite attemptBodies_buffer.
Qed.

End ReplayMore.

Lemma seek_replay_final_position_witness :
  replay.closed scenarios.file = false /\
  (replay.attemptBodies ([1%nat; 5%nat] ++ [1%nat]) (replay.SeekBody scenarios.file)).2 =
    replay.SeekBody
      {| replay.content := replay.content scenarios.file;
         replay.offset := Nat.min 1 (length (replay.content scenarios.file));
         replay.closed := false |} /\
  (replay.attemptBodies ([1%nat; 5%nat] ++ [1%nat]) (replay.SeekBody scenarios.file)).2 =
    (replay.attemptBodies [1%nat] (replay.SeekBody scenarios.file)).2.
Proof.
  split; [reflexivity|].
  exact (seek_replay_final_position scenarios.file [1%nat; 5%nat] 1%nat eq_refl).
Defined.

Lemma closed_seeker_fails_each_attempt_witness :
  replay.closed scenarios.closedFile = true /\
  replay.newBodyFunc (replay.Seeker scenarios.closedFile) =
    Ok (replay.SeekBody scenarios.closedFile) /\
  replay.attemptBodies [2%nat; 2%nat] (replay.SeekBody scenarios.closedFile) =
    (replicate (length [2%nat; 2%nat])
       (Err "failed to seek to start: file already closed"),
     replay.SeekBody scenarios.closedFile).
Proof.
  split; [reflexivity|].
  exact (closed_seeker_fails_each_attempt scenarios.closedFile [2%nat; 2%nat]
           eq_refl).
Defined.


Section ParseMore.
Import load doris.

Lemma lowerAscii_idemp (c : Ascii.ascii) : lowerAscii (lowerAscii c) = lowerAscii c.
Proof.
  unfold lowerAscii at 2.
  destruct (bool_decide (65 <= Ascii.nat_of_ascii c <= 90)%nat) eqn:Hup.
  - apply bool_decide_eq_true in Hup. unfold lowerAscii.
    rewrite Ascii.nat_ascii_embedding by lia.
    rewrite (bool_decide_eq_false_2 (65 <= Ascii.nat_of_ascii c + 32 <= 90)%nat) by lia.
    by rewrite bool_decide_eq_true_2.
  - unfold lowerAscii. by rewrite Hup.
Qed.

Lemma ToLower_idemp (s : string) : ToLower (ToLower s) = ToLower s.
Proof.
  induction s as [|c s IH]; cbn; [done|]. by rewrite lowerAscii_idemp, IH.
Qed.

(** ** The group commit mode *)

(** X22: [parseGroupCommitMode] gives SYNC exactly for a spelling of [sync]
    and ASYNC exactly for a spelling of [async], in any letter case; it
    warns, once, exactly when the mode is none of [sync], [async], [off] and
    the empty string; and the lower-case spelling of a mode parses to the
    same mode. *)
Theorem parseGroupCommitMode_iff (mode : string) :
  ((parseGroupCommitMode mode).1 = SYNC <-> ToLower mode = "sync") /\
  ((parseGroupCommitMode mode).1 = ASYNC <-> ToLower mode = "async") /\
  ((parseGroupCommitMode mode).2 = [] <->
     ToLower mode = "sync" \/ ToLower mode = "async" \/
     ToLower mode = "off" \/ ToLower mode = "") /\
  (length (parseGroupCommitMode mode).2 <= 1)%nat /\
  parseGroupCommitMode (ToLower mode) =
    ((parseGroupCommitMode mode).1,
     if decide ((parseGroupCommitMode mode).2 = []) then []
     else [Warningf ("Unknown group commit mode: " +:+ ToLower mode +:+ ", using 'off'")]).
Proof.
  unfold parseGroupCommitMode. rewrite ToLower_idemp.
  repeat case_decide; cbn; repeat split; try done; try lia; try tauto;
    try (intros ->; done); try (intros [->|[->|[->| ->]]]; done).
  all: try (intros [?|[?|[?|?]]]; tauto).
  all: intros; congruence.
Qed.

End ParseMore.

Section PerfFacts.
Import perf.

Lemma wrap64_small (z : Z) : - 2 ^ 63 <= z < 2 ^ 63 -> wrap64 z = z.
Proof. intros Hz. unfold wrap64. rewrite Z.mod_small; lia. Qed.

Lemma wrap64_idemp_l (x y : Z) : wrap64 (wrap64 x + y) = wrap64 (x + y).
Proof.
  unfold wrap64. f_equal.
  replace ((x + 2 ^ 63) `mod` 2 ^ 64 - 2 ^ 63 + y + 2 ^ 63)
    with ((x + 2 ^ 63) `mod` 2 ^ 64 + y) by lia.
  rewrite Zplus_mod_idemp_l. f_equal. lia.
Qed.

Lemma sum_app (l1 l2 : list Z) : sum (l1 ++ l2) = sum l1 + sum l2.
Proof. unfold sum. induction l1 as [|x l1 IH]; cbn; [done|]. rewrite IH. lia. Qed.

Lemma sum_const (b : Z) (f : Z -> Z) (l : list Z) :
  Forall (fun x => f x = b) l -> sum (f <$> l) = Z.of_nat (length l) * b.
Proof.
  induction 1 as [|x l Hx _ IH]; [done|].
  rewrite fmap_cons. change (sum (?a :: ?r)) with (a + sum r).
  rewrite IH, Hx. cbn [length]. lia.
Qed.

Lemma batchIDs_range (n id : Z) : id ∈ batchIDs n -> 0 <= id < n.
Proof.
  unfold batchIDs. intros Hin. apply list_elem_of_fmap in Hin as (k & -> & Hk).
  apply elem_of_seq in Hk. lia.
Qed.

Lemma batchIDs_length (n : Z) : length (batchIDs n) = Z.to_nat n.
Proof. unfold batchIDs. by rewrite length_fmap, length_seq. Qed.

Lemma batchIDs_succ (n : Z) : 0 <= n -> batchIDs (n + 1) = batchIDs n ++ [n].
Proof.
  intros Hn. unfold batchIDs. rewrite Z2Nat.inj_add by lia.
  change (Z.to_nat 1) with 1%nat. rewrite Nat.add_1_r, seq_S, fmap_app. cbn.
  by rewrite Z2Nat.id.
Qed.

Lemma totalBatches_nonneg (t b : Z) :
  0 <= t < 2 ^ 63 -> 0 < b ->
  totalBatches t b =
    Some (if decide (t `mod` b <> 0) then t `div` b + 1 else t `div` b) /\
  Z.rem t b = t `mod` b /\ 0 <= t `div` b <= t.
Proof.
  intros Ht Hb. unfold totalBatches. rewrite decide_False by lia.
  rewrite Z.quot_div_nonneg, Z.rem_mod_nonneg by lia.
  assert (0 <= t `div` b <= t).
  { split; [apply Z.div_pos; lia|]. apply Z.div_le_upper_bound; nia. }
  assert (t `mod` b <> 0 -> t `div` b + 1 <= t).
  { intros Hr. pose proof (Z.div_mod t b ltac:(lia)).
    pose proof (Z.mod_pos_bound t b Hb).
    destruct (decide (b = 1)) as [->|]; [rewrite Z.mod_1_r in Hr; done|]. nia. }
  rewrite (wrap64_small (t `div` b)) by lia.
  split; [|done]. case_decide; [|done]. rewrite wrap64_small; [done|lia].
Qed.

Lemma batches_cover (t b : Z) :
  0 <= t < 2 ^ 63 -> 0 < b ->
  exists n,
    totalBatches t b = Some n /\
    n = (t + b - 1) `div` b /\ 0 <= n <= t /\
    sum (currentBatchSize t b n <$> batchIDs n) = t /\
    Forall (fun id => 0 < currentBatchSize t b n id <= b) (batchIDs n).
Proof.
  intros Ht Hb. destruct (totalBatches_nonneg t b Ht Hb) as (Hn & Hrem & Hq).
  pose proof (Z.div_mod t b ltac:(lia)) as Hdm.
  pose proof (Z.mod_pos_bound t b Hb) as Hr.
  eexists. split; [exact Hn|]. case_decide as Hrz.
  - assert (Hle : t `div` b + 1 <= t).
    { destruct (decide (b = 1)) as [->|]; [rewrite Z.mod_1_r in Hrz; done|]. nia. }
    split.
    { apply Z.div_unique with (r := t `mod` b - 1); lia. }
    split; [lia|].
    assert (Hfull : Forall (fun id => currentBatchSize t b (t `div` b + 1) id = b)
                      (batchIDs (t `div` b))).
    { apply Forall_forall. intros id Hid. apply batchIDs_range in Hid.
      unfold currentBatchSize. rewrite decide_False; [done|lia]. }
    assert (Hlast : currentBatchSize t b (t `div` b + 1) (t `div` b) = t `mod` b).
    { unfold currentBatchSize. rewrite decide_True; [done|]. split; [lia|].
      by rewrite Hrem. }
    rewrite batchIDs_succ by lia. split.
    + rewrite fmap_app, sum_app, (sum_const b) by done.
      rewrite batchIDs_length, Z2Nat.id by lia. cbn. rewrite Hlast.
      unfold sum; cbn. lia.
    + apply Forall_app. split.
      * eapply Forall_impl; [exact Hfull|]. cbn. intros id ->. lia.
      * apply Forall_singleton. rewrite Hlast. lia.
  - split.
    { apply Z.div_unique with (r := b - 1); lia. }
    split; [lia|].
    assert (Hfull : Forall (fun id => currentBatchSize t b (t `div` b) id = b)
                      (batchIDs (t `div` b))).
    { apply Forall_forall. intros id Hid. unfold currentBatchSize.
      rewrite decide_False; [done|]. rewrite Hrem. tauto. }
    split.
    + rewrite (sum_const b) by done. rewrite batchIDs_length, Z2Nat.id by lia. lia.
    + eapply Forall_impl; [exact Hfull|]. cbn. intros id ->. lia.
Qed.

(** ** The performance test *)

(** X23: for a volume below 2^63 and a positive batch size,
    [runFixedVolumeTest] makes as many batches as the volume divided by the
    batch size, rounded up; every batch has at least one record and at most
    the batch size, and the sizes of all batches add up to the volume. *)
Theorem batches_partition (t b : Z) :
  0 <= t < 2 ^ 63 -> 0 < b ->
  let n := (t + b - 1) `div` b in
  totalBatches t b = Some n /\ 0 <= n <= t /\
  sum (currentBatchSize t b n <$> batchIDs n) = t /\
  Forall (fun id => 0 < currentBatchSize t b n id <= b) (batchIDs n).
Proof.
  intros Ht Hb. cbv zeta.
  by destruct (batches_cover t b Ht Hb) as (n & Hn & -> & Hrange & Hsum & Hsize).
Qed.

(** X24: the batch count [main] prints and the batch count
    [runFixedVolumeTest] works with are the same number, as long as the
    volume plus the batch size stays within [int64]. *)
Theorem mainTotalBatches_agrees (t b : Z) :
  0 <= t -> 0 < b -> t + b - 1 < 2 ^ 63 ->
  mainTotalBatches t b = totalBatches t b.
Proof.
  intros Ht Hb Hfit.
  destruct (batches_cover t b ltac:(lia) Hb) as (n & -> & -> & Hn & _).
  unfold mainTotalBatches. rewrite decide_False by lia.
  replace (wrap64 (t + b) - 1) with (wrap64 (t + b) + -1) by lia.
  rewrite wrap64_idemp_l. replace (t + b + -1) with (t + b - 1) by lia.
  rewrite (wrap64_small (t + b - 1)) by lia.
  rewrite Z.quot_div_nonneg by lia. rewrite wrap64_small; [done|lia].
Qed.

Lemma sum_Permutation (l1 l2 : list Z) : l1 ≡ₚ l2 -> sum l1 = sum l2.
Proof.
  unfold sum. induction 1; cbn; lia.
Qed.

Lemma sum_filter_split (f : Z -> Z) (ok : Z -> bool) (l : list Z) :
  sum (f <$> filter (fun id => ok id = true) l) +
  sum (f <$> filter (fun id => ok id <> true) l) = sum (f <$> l).
Proof.
  induction l as [|x l IH]; [done|].
  rewrite !filter_cons. destruct (ok x) eqn:Hx.
  - rewrite decide_True by done.
    rewrite (decide_False (P := true <> true)) by (intros Hne; by apply Hne).
    rewrite !fmap_cons. change (sum (?a :: ?r)) with (a + sum r) in *. lia.
  - rewrite decide_False, decide_True by done.
    rewrite !fmap_cons. change (sum (?a :: ?r)) with (a + sum r) in *. lia.
Qed.

Lemma length_filter_ok (ok : Z -> bool) (l : list Z) :
  (length (filter (fun id => ok id = true) l) +
   length (filter (fun id => ok id <> true) l) = length l)%nat.
Proof.
  induction l as [|x l IH]; [done|].
  rewrite !filter_cons. destruct (ok x) eqn:Hx.
  - rewrite decide_True by done.
    rewrite (decide_False (P := true <> true)) by (intros Hne; by apply Hne).
    cbn. lia.
  - rewrite decide_False, decide_True by done. cbn. lia.
Qed.

Lemma filter_failed_nil (ok : Z -> bool) (l : list Z) :
  Forall (fun id => ok id = true) l -> filter (fun id => ok id <> true) l = [].
Proof.
  induction 1 as [|x l Hx _ IH]; [done|].
  rewrite filter_cons, decide_False; [done|]. intros Hne. by apply Hne.
Qed.

Lemma sum_positive (f : Z -> Z) (l : list Z) :
  Forall (fun id => 0 < f id) l -> 0 <= sum (f <$> l) /\ (l <> [] -> 0 < sum (f <$> l)).
Proof.
  induction 1 as [|x l Hx _ IH]; [done|].
  rewrite fmap_cons. change (sum (?a :: ?r)) with (a + sum r). lia.
Qed.

Lemma work_ok (t b n dataSize : Z) (generated : Z -> Z) (ok : Z -> bool)
    (c : Counters) (id : Z) :
  ok id = true ->
  processedRecords (work t b n dataSize generated ok c id) =
    wrap64 (processedRecords c + currentBatchSize t b n id) /\
  completedBatches (work t b n dataSize generated ok c id) =
    wrap64 (completedBatches c + 1) /\
  failedBatches (work t b n dataSize generated ok c id) = failedBatches c.
Proof. intros Hok. unfold work. by rewrite Hok. Qed.

Lemma work_failed (t b n dataSize : Z) (generated : Z -> Z) (ok : Z -> bool)
    (c : Counters) (id : Z) :
  ok id = false ->
  processedRecords (work t b n dataSize generated ok c id) = processedRecords c /\
  completedBatches (work t b n dataSize generated ok c id) = completedBatches c /\
  failedBatches (work t b n dataSize generated ok c id) =
    wrap64 (failedBatches c + 1).
Proof. intros Hok. unfold work. by rewrite Hok. Qed.

Lemma foldl_work (t b n dataSize : Z) (generated : Z -> Z) (ok : Z -> bool)
    (l : list Z) (c : Counters) :
  Forall (fun id => 0 < currentBatchSize t b n id) l ->
  0 <= processedRecords c -> 0 <= completedBatches c -> 0 <= failedBatches c ->
  processedRecords c + sum (currentBatchSize t b n <$> l) < 2 ^ 63 ->
  completedBatches c + failedBatches c + Z.of_nat (length l) < 2 ^ 63 ->
  processedRecords (foldl (work t b n dataSize generated ok) c l) =
    processedRecords c +
    sum (currentBatchSize t b n <$> filter (fun id => ok id = true) l) /\
  completedBatches (foldl (work t b n dataSize generated ok) c l) =
    completedBatches c + Z.of_nat (length (filter (fun id => ok id = true) l)) /\
  failedBatches (foldl (work t b n dataSize generated ok) c l) =
    failedBatches c + Z.of_nat (length (filter (fun id => ok id <> true) l)).
Proof.
  revert c. induction l as [|id l IH]; intros c Hpos Hp Hc Hf Hsum Hlen.
  { cbn. change (sum []) with 0. lia. }
  apply Forall_cons in Hpos as [Hid Hpos].
  rewrite fmap_cons in Hsum. change (sum (?a :: ?r)) with (a + sum r) in Hsum.
  cbn [length] in Hlen.
  destruct (sum_positive (currentBatchSize t b n) l Hpos) as [Hnn _].
  cbn [foldl]. rewrite !filter_cons.
  destruct (ok id) eqn:Hok.
  - destruct (work_ok t b n dataSize generated ok c id Hok) as (Wp & Wc & Wf).
    rewrite wrap64_small in Wp by lia. rewrite wrap64_small in Wc by lia.
    rewrite decide_True by done.
    rewrite (decide_False (P := true <> true)) by (intros Hne; by apply Hne).
    destruct (IH (work t b n dataSize generated ok c id)) as (-> & -> & ->);
      rewrite ?Wp, ?Wc, ?Wf; try lia; try done.
    rewrite fmap_cons. change (sum (?a :: ?r)) with (a + sum r). cbn [length]. lia.
  - destruct (work_failed t b n dataSize generated ok c id Hok) as (Wp & Wc & Wf).
    rewrite wrap64_small in Wf by lia.
    rewrite decide_False by done.
    rewrite (decide_True (P := false <> true)) by done.
    destruct (IH (work t b n dataSize generated ok c id)) as (-> & -> & ->);
      rewrite ?Wp, ?Wc, ?Wf; try lia; try done.
    cbn [length]. lia.
Qed.

(** X25: when the workers take every batch, in whatever order they finish,
    the test counts every batch once, as completed or as failed; the
    completed batches are those whose load succeeded; the processed records
    never exceed the volume, and they reach it exactly when every load
    succeeded. *)
Theorem runFixedVolumeTest_accounts (t b dataSize n : Z) (generated : Z -> Z)
    (ok : Z -> bool) (order : list Z) :
  0 <= t < 2 ^ 63 -> 0 < b ->
  totalBatches t b = Some n -> order ≡ₚ batchIDs n ->
  exists c,
    runFixedVolumeTest t b dataSize generated ok order = Some c /\
    completedBatches c + failedBatches c = n /\
    completedBatches c =
      Z.of_nat (length (filter (fun id => ok id = true) order)) /\
    0 <= processedRecords c <= t /\
    (processedRecords c = t <-> Forall (fun id => ok id = true) order).
Proof.
  intros Ht Hb Hn Horder.
  destruct (batches_cover t b Ht Hb) as (n' & Hn' & _ & Hrange & Hsum & Hsize).
  rewrite Hn in Hn'. injection Hn' as <-.
  assert (Hsum' : sum (currentBatchSize t b n <$> order) = t).
  { rewrite <- Hsum at 2. apply sum_Permutation. by apply fmap_Permutation. }
  assert (Hpos : Forall (fun id => 0 < currentBatchSize t b n id) order).
  { rewrite Horder. eapply Forall_impl; [exact Hsize|]. cbn. lia. }
  assert (Hlen : Z.of_nat (length order) = n).
  { rewrite Horder, batchIDs_length. lia. }
  unfold runFixedVolumeTest. rewrite Hn. rewrite decide_False by lia.
  destruct (foldl_work t b n dataSize generated ok order zero Hpos)
    as (Hp & Hc & Hf); cbn; try lia.
  cbn in Hp, Hc, Hf. eexists. split; [reflexivity|].
  pose proof (sum_filter_split (currentBatchSize t b n) ok order) as Hsplit.
  assert (Hbadpos : Forall (fun id => 0 < currentBatchSize t b n id)
                      (filter (fun id => ok id <> true) order)).
  { apply Forall_forall. intros id [_ Hid]%list_elem_of_filter.
    by apply (proj1 (Forall_forall _ _) Hpos). }
  assert (Hokpos : Forall (fun id => 0 < currentBatchSize t b n id)
                      (filter (fun id => ok id = true) order)).
  { apply Forall_forall. intros id [_ Hid]%list_elem_of_filter.
    by apply (proj1 (Forall_forall _ _) Hpos). }
  destruct (sum_positive _ _ Hbadpos) as [Hb0 Hb1].
  destruct (sum_positive _ _ Hokpos) as [Ho0 _].
  rewrite Hp, Hc, Hf. split.
  { pose proof (length_filter_ok ok order). lia. }
  split; [done|]. split; [lia|]. split.
  - intros Heq. apply Forall_forall. intros id Hid.
    destruct (ok id) eqn:Hok; [done|]. exfalso.
    assert (Hne : filter (fun id => ok id <> true) order <> []).
    { intros Hnil. assert (id ∈ filter (fun id => ok id <> true) order) as Hin.
      { apply list_elem_of_filter. split; [by rewrite Hok|done]. }
      rewrite Hnil in Hin. by apply elem_of_nil in Hin. }
    specialize (Hb1 Hne). lia.
  - intros Hall.
    pose proof (filter_failed_nil ok order Hall) as Hnil.
    rewrite Hnil in Hsplit. change (sum (_ <$> [])) with 0 in Hsplit. lia.
Qed.

End PerfFacts.

Lemma batches_partition_witness :
  0 <= 10 < 2 ^ 63 /\ 0 < 4 /\
  let n := (10 + 4 - 1) `div` 4 in
  perf.totalBatches 10 4 = Some n /\ 0 <= n <= 10 /\
  perf.sum (perf.currentBatchSize 10 4 n <$> perf.batchIDs n) = 10 /\
  Forall (fun id => 0 < perf.currentBatchSize 10 4 n id <= 4) (perf.batchIDs n).
Proof.
  assert (Ht : 0 <= 10 < 2 ^ 63) by lia.
  assert (Hb : 0 < 4) by lia.
  exact (conj Ht (conj Hb (batches_partition 10 4 Ht Hb))).
Defined.

Lemma mainTotalBatches_agrees_witness :
  0 <= 10 /\ 0 < 4 /\ 10 + 4 - 1 < 2 ^ 63 /\
  perf.mainTotalBatches 10 4 = perf.totalBatches 10 4.
Proof.
  assert (Ht : 0 <= 10) by lia.
  assert (Hb : 0 < 4) by lia.
  assert (Hfit : 10 + 4 - 1 < 2 ^ 63) by lia.
  exact (conj Ht (conj Hb (conj Hfit (mainTotalBatches_agrees 10 4 Ht Hb Hfit)))).
Defined.

Lemma runFixedVolumeTest_accounts_witness :
  let ok := fun id : Z => negb (id =? 1) in
  let generated := fun k : Z => 25 * k in
  0 <= 10 < 2 ^ 63 /\ 0 < 4 /\
  perf.totalBatches 10 4 = Some 3 /\ [2; 0; 1] ≡ₚ perf.batchIDs 3 /\
  exists c,
    perf.runFixedVolumeTest 10 4 100 generated ok [2; 0; 1] = Some c /\
    perf.completedBatches c + perf.failedBatches c = 3 /\
    perf.completedBatches c =
      Z.of_nat (length (filter (fun id => ok id = true) [2; 0; 1])) /\
    0 <= perf.processedRecords c <= 10 /\
    (perf.processedRecords c = 10 <-> Forall (fun id => ok id = true) [2; 0; 1]).
Proof.
  cbv zeta.
  assert (Ht : 0 <= 10 < 2 ^ 63) by lia.
  assert (Hb : 0 < 4) by lia.
  assert (Hp : [2; 0; 1] ≡ₚ perf.batchIDs 3).
  { exact (Permutation_cons_append [0; 1] 2). }
  exact (conj Ht (conj Hb (conj eq_refl (conj Hp
           (runFixedVolumeTest_accounts 10 4 100 3 (fun k : Z => 25 * k)
              (fun id : Z => negb (id =? 1)) [2; 0; 1] Ht Hb eq_refl Hp))))).
Defined.


Section SubscriberFacts.
Import subscriber.

Lemma scanRows_spec (rows : list Scan) (logs : list Log) (last : Z) :
  scanRows rows logs last =
    (logs ++ (logOf <$> scannedRows rows),
     foldl Z.max last (timestamp <$> scannedRows rows),
     (scanRows rows logs last).2).
Proof.
  revert logs last. induction rows as [|[r|err] rows IH]; intros logs last; cbn.
  - by rewrite app_nil_r.
  - rewrite IH. cbn. rewrite <- app_assoc. cbn.
    case_bool_decide.
    + by rewrite (Z.max_r last) by lia.
    + by rewrite (Z.max_l last) by lia.
  - by rewrite app_nil_r.
Qed.

Lemma foldl_max_ge (l : list Z) (a : Z) :
  a <= foldl Z.max a l /\ Forall (fun x => x <= foldl Z.max a l) l.
Proof.
  revert a. induction l as [|x l IH]; intros a; cbn; [split; [lia|done]|].
  destruct (IH (Z.max a x)) as [H1 H2]. split; [lia|].
  constructor; [lia|done].
Qed.

Lemma foldl_max_in (l : list Z) (a : Z) :
  foldl Z.max a l = a \/ foldl Z.max a l ∈ l.
Proof.
  revert a. induction l as [|x l IH]; intros a; cbn; [by left|].
  destruct (IH (Z.max a x)) as [H1|H1].
  - rewrite H1. destruct (Z.max_spec a x) as [[_ ->]|[_ ->]].
    + right. by left.
    + by left.
  - right. by right.
Qed.

Lemma scanRows_err (rows : list Scan) (logs : list Log) (last : Z) :
  (scanRows rows logs last).2 = None <->
  Forall (fun s => exists r, s = Scanned r) rows.
Proof.
  revert logs last. induction rows as [|[r|err] rows IH]; intros logs last; cbn.
  - split; [by constructor|done].
  - rewrite IH. split.
    + intros Hall. constructor; [by eexists|done].
    + by intros [_ Hall]%Forall_cons.
  - split; [done|]. intros [[r Hr] _]%Forall_cons. done.
Qed.

(** ** The subscriber of the end-to-end test *)

(** X26: [queryRecords] returns one log for each row scanned before the
    first scan error, in order, with the time cut to 32 bits; the
    subscriber's last timestamp never goes back: afterwards it is at least
    its old value and at least the timestamp of every row scanned, and it
    is the old value or the timestamp of one of those rows. This holds
    also when the call returns an error. *)
Theorem queryRecords_watermark (lastTimestamp : Z) (a : Answer) :
  let rs := match a with Rows rows _ => scannedRows rows | QueryFailed _ => [] end in
  let '(logs, last, _) := queryRecords lastTimestamp a in
  logs = logOf <$> rs /\
  Forall (fun l => 0 <= Time l < 2 ^ 32) logs /\
  lastTimestamp <= last /\
  Forall (fun r => timestamp r <= last) rs /\
  (last = lastTimestamp \/ exists r, r ∈ rs /\ timestamp r = last).
Proof.
  destruct a as [err|rows rowsErr]; cbn.
  { split; [done|]. split; [done|]. split; [lia|]. split; [done|]. by left. }
  rewrite scanRows_spec. cbn.
  set (rs := scannedRows rows).
  assert (Hgoal :
    [] ++ (logOf <$> rs) = logOf <$> rs /\
    Forall (fun l => 0 <= Time l < 2 ^ 32) (logOf <$> rs) /\
    lastTimestamp <= foldl Z.max lastTimestamp (timestamp <$> rs) /\
    Forall (fun r => timestamp r <= foldl Z.max lastTimestamp (timestamp <$> rs)) rs /\
    (foldl Z.max lastTimestamp (timestamp <$> rs) = lastTimestamp \/
     exists r, r ∈ rs /\ timestamp r = foldl Z.max lastTimestamp (timestamp <$> rs))).
  { split; [done|]. split.
    { apply Forall_fmap, Forall_forall. intros r _. cbn. unfold uint32.
      apply Z.mod_pos_bound. lia. }
    destruct (foldl_max_ge (timestamp <$> rs) lastTimestamp) as [H1 H2].
    split; [done|]. split.
    { apply Forall_forall. intros r Hr.
      apply (proj1 (Forall_forall _ _) H2). apply list_elem_of_fmap. by exists r. }
    destruct (foldl_max_in (timestamp <$> rs) lastTimestamp) as [H3|H3]; [by left|].
    right. apply list_elem_of_fmap in H3 as (r & Hr & Hin). by exists r. }
  by destruct (scanRows rows [] lastTimestamp).2.
Qed.

(** X27: [queryRecords] returns no error exactly when the query was
    answered, every row was scanned, and the iteration ended without
    error. *)
Theorem queryRecords_error (lastTimestamp : Z) (a : Answer) :
  (queryRecords lastTimestamp a).2 = None <->
  exists rows, a = Rows rows None /\ Forall (fun s => exists r, s = Scanned r) rows.
Proof.
  destruct a as [err|rows rowsErr]; cbn.
  { split; [done|]. by intros (rows & ? & _). }
  pose proof (scanRows_err rows [] lastTimestamp) as Herr.
  destruct (scanRows rows [] lastTimestamp) as [[logs last] [e|]]; cbn in *.
  - split; [done|]. intros (rows' & [= <- _] & Hall). by apply Herr in Hall.
  - split.
    + intros ->. exists rows. split; [done|]. by apply Herr.
    + by intros (rows' & [= <- <-] & _).
Qed.

End SubscriberFacts.
